(** * HashDispatcher: consumer-to-instance assignment over a consistent-hash ring

    A shallow embedding of [pkg/dispatcher] (package [dispatcher], type
    [HashDispatcher]) of maestro.  The dispatcher owns three pieces of state:
    its own [instanceID], the [consumerSet] of consumers it currently claims,
    and the hashing ring [consistent].  Everything else it touches is a
    collaborator behind an interface: the two DAOs, the cloudevents source
    client and the rate-limiting work queue.  Calls on collaborators are
    recorded, in program order, in a log of [Call]s; what a collaborator
    answers is an input of the embedded function.  Logging is not modelled. *)

From stdpp Require Import gmap strings list.

Set Default Proof Using "Type".

(** ** Data *)

(** Go's [(T, error)] result pair: either a value and a nil error, or an
    error carrying the text of [err.Error()]. *)
Inductive Result (A : Type) : Type :=
| Ok (a : A)
| Err (msg : string).
Arguments Ok {A} a.
Arguments Err {A} msg.

(** Go's [error] as returned by the dispatcher: [None] is [nil]. *)
Definition error : Type := option string.

(** [api.Consumer] and [api.ServerInstance]; the dispatcher reads only
    the [ID] of their embedded [Meta]. *)
Record Consumer : Type := { ID : string }.
Record ServerInstance : Type := { InstanceID : string }.

(** Items of the work queue have type [interface{}]: a string, or a value
    of some other dynamic type (told apart by a tag). *)
Inductive Item : Type :=
| ItemString (s : string)
| ItemOther (tag : nat).

Global Instance Item_eq_dec : EqDecision Item.
Proof. solve_decision. Defined.

(** Calls made on the collaborators of the dispatcher. *)
Inductive Call : Type :=
| InstanceDao_All
| ConsumerDao_All
| SourceClient_Resync (ids : list string)
| WorkQueue_Add (item : Item)
| WorkQueue_AddRateLimited (item : Item)
| WorkQueue_Get
| WorkQueue_Done (item : Item)
| WorkQueue_Forget (item : Item)
| WorkQueue_ShutDown.

Global Instance Call_eq_dec : EqDecision Call.
Proof. solve_decision. Defined.

(** The hashing ring [*consistent.Consistent], seen through the methods the
    dispatcher uses.  Its members are kept by name; the ring keys and
    partitions the library keeps beside them are not modelled. *)
Record Consistent : Type := { members : gset string }.

(** [GetMembers]: a snapshot slice of the members. *)
Definition GetMembers (c : Consistent) : list string := elements (members c).

(** [Add]: a member that is already present is left alone.  This is the
    call that returns; a panic inside the library while it distributes the
    partitions is outside the model. *)
Definition Add (member : string) (c : Consistent) : Consistent :=
  {| members := members c ∪ {[member]} |}.

(** [Remove]: by name; an absent name is left alone.  As for [Add], this is
    the call that returns. *)
Definition Remove (name : string) (c : Consistent) : Consistent :=
  {| members := members c ∖ {[name]} |}.

(** The dispatcher's own state. *)
Record HashDispatcher : Type := {
  instanceID : string;
  consumerSet : gset string;
  consistent : Consistent
}.

Definition set_consumerSet (s : gset string) (d : HashDispatcher) : HashDispatcher :=
  {| instanceID := instanceID d; consumerSet := s; consistent := consistent d |}.

Definition set_consistent (c : Consistent) (d : HashDispatcher) : HashDispatcher :=
  {| instanceID := instanceID d; consumerSet := consumerSet d; consistent := c |}.

(** [mapset.Set[string]] operations used on [consumerSet]. *)
Definition Contains (s : gset string) (x : string) : bool := bool_decide (x ∈ s).
Definition Append (s : gset string) (xs : list string) : gset string := s ∪ list_to_set xs.
Definition RemoveAll (s : gset string) (xs : list string) : gset string := s ∖ list_to_set xs.

(** ** Methods run in a state-and-log monad *)

(** A method takes the dispatcher, and yields its return value, the
    dispatcher afterwards and the calls it made on collaborators. *)
Record Outcome (A : Type) : Type := {
  returned : A;
  after : HashDispatcher;
  calls : list Call
}.
Arguments returned {A} o.
Arguments after {A} o.
Arguments calls {A} o.

Definition M (A : Type) : Type := HashDispatcher → Outcome A.

Global Instance M_ret : MRet M := λ A a d,
  {| returned := a; after := d; calls := [] |}.

Global Instance M_bind : MBind M := λ A B f m d,
  let o1 := m d in
  let o2 := f (returned o1) (after o1) in
  {| returned := returned o2; after := after o2; calls := calls o1 ++ calls o2 |}.

Definition get : M HashDispatcher := λ d,
  {| returned := d; after := d; calls := [] |}.

Definition put (d' : HashDispatcher) : M unit := λ _,
  {| returned := tt; after := d'; calls := [] |}.

Definition call (c : Call) : M unit := λ d,
  {| returned := tt; after := d; calls := [c] |}.

(** [defer c] around a body: the deferred call runs after the body, on
    every way out of it. *)
Definition defer {A : Type} (c : Call) (body : M A) : M A :=
  r ← body; call c;; mret r.

Definition NewHashDispatcher (instanceID : string) : HashDispatcher :=
  {| instanceID := instanceID;
     consumerSet := ∅;
     consistent := {| members := ∅ |} |}.

(** [Dispatch]: is the consumer in this instance's consumer set? *)
Definition Dispatch (consumerID : string) (d : HashDispatcher) : bool :=
  Contains (consumerSet d) consumerID.

Section Dispatcher.

(** [LocateKey]: the member that owns a key.  The ring is a library
    configured in [NewHashDispatcher] (7 partitions, replication factor 20,
    load 1.25, xxhash); its placement of keys is kept abstract. *)
Variable LocateKey : Consistent → string → string.

(** The loop of [updateConsumerSet] over the listed consumers.  The consumer
    set is only read here; it is written after the loop. *)
Fixpoint partitionConsumers (consumers : list Consumer)
    (toAddConsumers toRemoveConsumers : list string) : M (list string * list string) :=
  match consumers with
  | [] => mret (toAddConsumers, toRemoveConsumers)
  | consumer :: rest =>
      d ← get;
      let owner := LocateKey (consistent d) (ID consumer) in
      if bool_decide (owner = instanceID d) then
        if negb (Contains (consumerSet d) (ID consumer)) then
          call (WorkQueue_Add (ItemString (ID consumer)));;
          partitionConsumers rest (toAddConsumers ++ [ID consumer]) toRemoveConsumers
        else partitionConsumers rest toAddConsumers toRemoveConsumers
      else
        if Contains (consumerSet d) (ID consumer) then
          partitionConsumers rest toAddConsumers (toRemoveConsumers ++ [ID consumer])
        else partitionConsumers rest toAddConsumers toRemoveConsumers
  end.

(** [updateConsumerSet]; [listing] is what [consumerDao.All] answers when it
    is called.  The field [consistent] is set by [NewHashDispatcher] and
    never nil, so the guard comes down to the ring having no member. *)
Definition updateConsumerSet (listing : Result (list Consumer)) : M error :=
  d ← get;
  if bool_decide (length (GetMembers (consistent d)) = 0) then mret None
  else
    call ConsumerDao_All;;
    match listing with
    | Err msg => mret (Some ("unable to list consumers: " +:+ msg))
    | Ok consumers =>
        '(toAddConsumers, toRemoveConsumers) ← partitionConsumers consumers [] [];
        d ← get;
        put (set_consumerSet (Append (consumerSet d) toAddConsumers) d);;
        d ← get;
        put (set_consumerSet (RemoveAll (consumerSet d) toRemoveConsumers) d);;
        mret None
    end.

(** The membership scan shared by [OnInstanceUp] and [OnInstanceDown]:
    is there a member whose [String()] is [instanceID]? *)
Fixpoint isMember (members : list string) (instanceID : string) : bool :=
  match members with
  | [] => false
  | member :: rest =>
      if bool_decide (member = instanceID) then true else isMember rest instanceID
  end.

(** [OnInstanceUp]. *)
Definition OnInstanceUp (listing : Result (list Consumer)) (instanceID : string) : M error :=
  d ← get;
  if isMember (GetMembers (consistent d)) instanceID then mret None
  else
    put (set_consistent (Add instanceID (consistent d)) d);;
    updateConsumerSet listing.

(** [OnInstanceDown]; [deletedMember] is the negation of the scan. *)
Definition OnInstanceDown (listing : Result (list Consumer)) (instanceID : string) : M error :=
  d ← get;
  let deletedMember := negb (isMember (GetMembers (consistent d)) instanceID) in
  if deletedMember then mret None
  else
    put (set_consistent (Remove instanceID (consistent d)) d);;
    updateConsumerSet listing.

(** The inner loop of [check]: does the member appear among the instances? *)
Fixpoint isMemberActive (member : string) (instances : list ServerInstance) : bool :=
  match instances with
  | [] => false
  | instance :: rest =>
      if bool_decide (member = InstanceID instance) then true
      else isMemberActive member rest
  end.

(** The outer loop of [check], over the snapshot of the members. *)
Fixpoint removeInactive (members : list string) (instances : list ServerInstance) : M unit :=
  match members with
  | [] => mret tt
  | member :: rest =>
      (if negb (isMemberActive member instances) then
         d ← get; put (set_consistent (Remove member (consistent d)) d)
       else mret tt);;
      removeInactive rest instances
  end.

(** [check], the body of the 5-second ticker; [instances] is what
    [instanceDao.All] answers.  An error of [updateConsumerSet] is logged
    and dropped. *)
Definition check (instances : Result (list ServerInstance))
    (listing : Result (list Consumer)) : M unit :=
  call InstanceDao_All;;
  match instances with
  | Err _ => mret tt
  | Ok instances =>
      d ← get;
      removeInactive (GetMembers (consistent d)) instances;;
      _ ← updateConsumerSet listing;
      mret tt
  end.

End Dispatcher.

(** [processNextResync]; [got] is what [workQueue.Get] answers and [resync]
    what [sourceClient.Resync] answers when it is called.  The item is typed
    [interface{}]; the type assertion to [string] fails on [ItemOther]. *)
Definition processNextResync (got : Item * bool) (resync : error) : M bool :=
  call WorkQueue_Get;;
  let '(consumerID, shutdown) := got in
  if shutdown then mret false
  else
    defer (WorkQueue_Done consumerID)
      match consumerID with
      | ItemOther _ =>
          call (WorkQueue_Forget consumerID);;
          mret true
      | ItemString consumerIDStr =>
          call (SourceClient_Resync [consumerIDStr]);;
          match resync with
          | Some _ => call (WorkQueue_AddRateLimited consumerID);; mret true
          | None => mret true
          end
      end.

(** The three ways the outside world drives the dispatcher: the two
    membership signals, and a tick of the 5-second ticker that [Start]
    sets up around [check]. *)
Inductive Event : Type :=
| InstanceUp (listing : Result (list Consumer)) (instanceID : string)
| InstanceDown (listing : Result (list Consumer)) (instanceID : string)
| Tick (instances : Result (list ServerInstance)) (listing : Result (list Consumer)).

Definition isInstanceUp (e : Event) : bool :=
  match e with InstanceUp _ _ => true | _ => false end.

Section Events.

Variable LocateKey : Consistent → string → string.

Definition handle (e : Event) : M unit :=
  match e with
  | InstanceUp listing instanceID => _ ← OnInstanceUp LocateKey listing instanceID; mret tt
  | InstanceDown listing instanceID => _ ← OnInstanceDown LocateKey listing instanceID; mret tt
  | Tick instances listing => check LocateKey instances listing
  end.

Fixpoint handleAll (events : list Event) : M unit :=
  match events with
  | [] => mret tt
  | e :: rest => handle e;; handleAll rest
  end.

End Events.

(** One worker of [startStatusResyncWorkers]: [for d.processNextResync(ctx) {}],
    run against the answers the queue and the source client give, one pair
    for each turn of the loop.  The result tells whether the loop was left;
    with the answers used up the worker is waiting in [Get]. *)
Fixpoint resyncWorker (answers : list (Item * bool * error)) : M bool :=
  match answers with
  | [] => mret false
  | (got, resync) :: rest =>
      processNextResync got resync ≫= λ continue : bool,
        if continue then resyncWorker rest else mret true
  end.

(** ** Ownership changes seen by a reconciliation *)

Section Ownership.

Variable LocateKey : Consistent → string → string.

(** Is the consumer ID newly acquired, or released, in state [d]? *)
Definition acquired (d : HashDispatcher) (id : string) : Prop :=
  LocateKey (consistent d) id = instanceID d ∧ id ∉ consumerSet d.

Definition released (d : HashDispatcher) (id : string) : Prop :=
  LocateKey (consistent d) id ≠ instanceID d ∧ id ∈ consumerSet d.

Global Instance acquired_dec d id : Decision (acquired d id).
Proof. unfold acquired. apply _. Defined.

Global Instance released_dec d id : Decision (released d id).
Proof. unfold released. apply _. Defined.

End Ownership.

(** ** Logs *)

(** How many times a call occurs in a log. *)
Definition times (c : Call) (log : list Call) : nat :=
  length (filter (λ x, x = c) log).

(** ** [Start] and its goroutines

    [Start] launches [startStatusResyncWorkers] and the ticker with [go],
    waits for [ctx.Done()], shuts the queue down and returns.  The
    goroutines are modelled as threads that take one step at a time under a
    scheduler; a step that would block yields [None].  The queue keeps to
    its contract: [Get] hands out a waiting item, reports shutdown once the
    queue is shut down and empty, and otherwise blocks; [Add] after
    [ShutDown] is dropped. *)

Definition maxConcurrentResyncHandlers : nat := 10.

(** Where [Start] stands. *)
Inductive StartPC : Type :=
| AtGoWorkers      (* go d.startStatusResyncWorkers(ctx) *)
| AtGoTicker       (* go wait.Until(d.check, 5*time.Second, ctx.Done()) *)
| AtCtxDone        (* <-ctx.Done() *)
| AtShutDown       (* d.workQueue.ShutDown() *)
| StartReturned.

(** Where the goroutine of [startStatusResyncWorkers] stands. *)
Inductive WorkersPC : Type :=
| NotLaunched
| AtWgAdd                    (* wg.Add(maxConcurrentResyncHandlers) *)
| AtSpawn (i : nat)          (* the loop, before go func() of turn i *)
| AtWgWait                   (* wg.Wait() *)
| WorkersReturned.

(** Where one worker goroutine stands in [for d.processNextResync(ctx) {}]. *)
Inductive WorkerPC : Type :=
| InGet                      (* in workQueue.Get() *)
| Processing (item : Item)   (* past Get, before processNextResync returns *)
| Exited.                    (* loop left, deferred wg.Done() run *)

Global Instance StartPC_eq_dec : EqDecision StartPC.
Proof. solve_decision. Defined.
Global Instance WorkersPC_eq_dec : EqDecision WorkersPC.
Proof. solve_decision. Defined.
Global Instance WorkerPC_eq_dec : EqDecision WorkerPC.
Proof. solve_decision. Defined.

Record System : Type := {
  ctxDone : bool;            (* ctx has been cancelled *)
  shuttingDown : bool;       (* the work queue has been shut down *)
  queue : list Item;         (* items waiting in the work queue *)
  startPC : StartPC;
  workersPC : WorkersPC;
  wg : nat;                  (* counter of the sync.WaitGroup *)
  workers : list WorkerPC    (* the worker goroutines launched so far *)
}.

Definition initial : System :=
  {| ctxDone := false; shuttingDown := false; queue := [];
     startPC := AtGoWorkers; workersPC := NotLaunched; wg := 0; workers := [] |}.

(** Who moves next. *)
Inductive Thread : Type :=
| Cancel                     (* the owner of ctx cancels it *)
| Enqueue (item : Item)      (* an Add on the queue takes effect *)
| StartThread
| WorkersThread
| Worker (i : nat).

Definition Start_step (s : System) : option System :=
  match startPC s with
  | AtGoWorkers =>
      Some {| ctxDone := ctxDone s; shuttingDown := shuttingDown s; queue := queue s;
              startPC := AtGoTicker; workersPC := AtWgAdd;
              wg := wg s; workers := workers s |}
  | AtGoTicker =>
      Some {| ctxDone := ctxDone s; shuttingDown := shuttingDown s; queue := queue s;
              startPC := AtCtxDone; workersPC := workersPC s;
              wg := wg s; workers := workers s |}
  | AtCtxDone =>
      if ctxDone s then
        Some {| ctxDone := ctxDone s; shuttingDown := shuttingDown s; queue := queue s;
                startPC := AtShutDown; workersPC := workersPC s;
                wg := wg s; workers := workers s |}
      else None
  | AtShutDown =>
      Some {| ctxDone := ctxDone s; shuttingDown := true; queue := queue s;
              startPC := StartReturned; workersPC := workersPC s;
              wg := wg s; workers := workers s |}
  | StartReturned => None
  end.

Definition startStatusResyncWorkers_step (s : System) : option System :=
  match workersPC s with
  | NotLaunched => None
  | AtWgAdd =>
      Some {| ctxDone := ctxDone s; shuttingDown := shuttingDown s; queue := queue s;
              startPC := startPC s; workersPC := AtSpawn 0;
              wg := wg s + maxConcurrentResyncHandlers; workers := workers s |}
  | AtSpawn i =>
      if bool_decide (i < maxConcurrentResyncHandlers) then
        Some {| ctxDone := ctxDone s; shuttingDown := shuttingDown s; queue := queue s;
                startPC := startPC s; workersPC := AtSpawn (S i);
                wg := wg s; workers := workers s ++ [InGet] |}
      else
        Some {| ctxDone := ctxDone s; shuttingDown := shuttingDown s; queue := queue s;
                startPC := startPC s; workersPC := AtWgWait;
                wg := wg s; workers := workers s |}
  | AtWgWait =>
      if bool_decide (wg s = 0) then
        Some {| ctxDone := ctxDone s; shuttingDown := shuttingDown s; queue := queue s;
                startPC := startPC s; workersPC := WorkersReturned;
                wg := wg s; workers := workers s |}
      else None
  | WorkersReturned => None
  end.

Definition worker_step (i : nat) (s : System) : option System :=
  match workers s !! i with
  | None => None
  | Some InGet =>
      match queue s with
      | item :: rest =>
          Some {| ctxDone := ctxDone s; shuttingDown := shuttingDown s; queue := rest;
                  startPC := startPC s; workersPC := workersPC s;
                  wg := wg s; workers := <[i := Processing item]> (workers s) |}
      | [] =>
          if shuttingDown s then
            Some {| ctxDone := ctxDone s; shuttingDown := shuttingDown s; queue := [];
                    startPC := startPC s; workersPC := workersPC s;
                    wg := wg s - 1; workers := <[i := Exited]> (workers s) |}
          else None
      end
  | Some (Processing _) =>
      Some {| ctxDone := ctxDone s; shuttingDown := shuttingDown s; queue := queue s;
              startPC := startPC s; workersPC := workersPC s;
              wg := wg s; workers := <[i := InGet]> (workers s) |}
  | Some Exited => None
  end.

Definition step (t : Thread) (s : System) : option System :=
  match t with
  | Cancel =>
      Some {| ctxDone := true; shuttingDown := shuttingDown s; queue := queue s;
              startPC := startPC s; workersPC := workersPC s;
              wg := wg s; workers := workers s |}
  | Enqueue item =>
      Some {| ctxDone := ctxDone s; shuttingDown := shuttingDown s;
              queue := if shuttingDown s then queue s else queue s ++ [item];
              startPC := startPC s; workersPC := workersPC s;
              wg := wg s; workers := workers s |}
  | StartThread => Start_step s
  | WorkersThread => startStatusResyncWorkers_step s
  | Worker i => worker_step i s
  end.

(** A schedule, run from a state; [None] if some step of it could not be taken. *)
Fixpoint run (schedule : list Thread) (s : System) : option System :=
  match schedule with
  | [] => Some s
  | t :: rest =>
      match step t s with
      | Some s' => run rest s'
      | None => None
      end
  end.

(** Worker goroutines that have not left their loop. *)
Definition live (ws : list WorkerPC) : nat :=
  length (filter (λ pc, pc ≠ Exited) ws).

(** What holds of every state the system can reach. *)
Definition startInv (s : System) : Prop :=
  (startPC s = AtGoWorkers ↔ workersPC s = NotLaunched) ∧
  (startPC s = AtShutDown → ctxDone s = true) ∧
  (startPC s = StartReturned → ctxDone s = true) ∧
  (shuttingDown s = true ↔ startPC s = StartReturned).

Definition workersInv (s : System) : Prop :=
  match workersPC s with
  | NotLaunched | AtWgAdd => workers s = [] ∧ wg s = 0
  | AtSpawn i =>
      length (workers s) = i ∧ i ≤ maxConcurrentResyncHandlers ∧
      wg s = (maxConcurrentResyncHandlers - i) + live (workers s)
  | AtWgWait =>
      length (workers s) = maxConcurrentResyncHandlers ∧ wg s = live (workers s)
  | WorkersReturned =>
      length (workers s) = maxConcurrentResyncHandlers ∧ wg s = live (workers s) ∧
      wg s = 0
  end.

(** The statements [Start] has yet to run before it has returned. *)
Definition stepsToReturn (pc : StartPC) : nat :=
  match pc with
  | AtGoWorkers => 4
  | AtGoTicker => 3
  | AtCtxDone => 2
  | AtShutDown => 1
  | StartReturned => 0
  end.

(** Two schedules.  In [gracefulRun] everything is launched, ctx is
    cancelled, [Start] shuts the queue down and returns, each worker sees
    the shutdown and leaves, and [startStatusResyncWorkers] returns.
    [hastyReturn] stops right after [Start] has returned. *)
Definition launchAll : list Thread :=
  [StartThread; StartThread] ++ replicate 12 WorkersThread.

Definition hastyReturn : list Thread :=
  launchAll ++ [Cancel; StartThread; StartThread].

Definition gracefulRun : list Thread :=
  hastyReturn ++ (Worker <$> seq 0 10) ++ [WorkersThread].

(** ** A small ring for worked examples

    The theorems below hold for every placement function.  Worked examples
    need one that computes: [byLength] spreads keys over the members by the
    length of the key.  On a ring with one member it answers that member for
    every key, as every ring does; on larger rings it is a placement of its
    own, not that of the library. *)
Definition byLength (c : Consistent) (key : string) : string :=
  default "" (GetMembers c !! (String.length key `mod` length (GetMembers c))).

Definition c1 : Consumer := {| ID := "c1" |}.
Definition c22 : Consumer := {| ID := "c22" |}.
Definition c333 : Consumer := {| ID := "c333" |}.

(** Instance A alone on the ring, owning [c1] and [c22]. *)
Definition aloneA : HashDispatcher :=
  after (OnInstanceUp byLength (Ok [c1; c22]) "A" (NewHashDispatcher "A")).

(** Instance A after the signal that B is up, when the listing of consumers
    failed: B is on the ring, the consumer set still holds [c1] and [c22],
    and the ring now places [c22] on B. *)
Definition staleA : HashDispatcher :=
  after (OnInstanceUp byLength (Err "connection refused") "B" aloneA).

(** Instance A after the signal that A itself is down: the ring is empty. *)
Definition emptiedA : HashDispatcher :=
  after (OnInstanceDown byLength (Ok [c1; c22]) "A" aloneA).

Global Instance Consumer_eq_dec : EqDecision Consumer.
Proof. solve_decision. Defined.

(** Two more dispatchers that have seen A and then B come up, with no
    consumer listed yet: the one of instance B, and the one of an instance
    C that is not on the ring. *)
Definition joinedB : HashDispatcher :=
  after (OnInstanceUp byLength (Ok []) "B"
    (after (OnInstanceUp byLength (Ok []) "A" (NewHashDispatcher "B")))).

Definition watcherC : HashDispatcher :=
  after (OnInstanceUp byLength (Ok []) "B"
    (after (OnInstanceUp byLength (Ok []) "A" (NewHashDispatcher "C")))).

(** The system once [launchAll] has run: all ten workers wait in [Get]. *)
Definition allLaunched : System :=
  {| ctxDone := false; shuttingDown := false; queue := [];
     startPC := AtCtxDone; workersPC := AtWgWait;
     wg := 10; workers := replicate 10 InGet |}.

(** ** Further vocabulary for the properties below *)

(** What the ring library promises of [LocateKey]: on a ring with members,
    the owner of a key is one of them. *)
Definition locatesMembers (LocateKey : Consistent → string → string) : Prop :=
  ∀ c key, members c ≠ ∅ → LocateKey c key ∈ members c.

(** Calls by kind, whatever the item. *)
Definition isGet (c : Call) : bool :=
  match c with WorkQueue_Get => true | _ => false end.

Definition isDone (c : Call) : bool :=
  match c with WorkQueue_Done _ => true | _ => false end.

(** The turns of a worker that retrieve an item. *)
Definition retrieves (answer : Item * bool * error) : Prop := answer.1.2 = false.

(** Until the queue is shut down no worker has left its loop. *)
Definition noExitInv (s : System) : Prop :=
  shuttingDown s = false → Forall (λ pc, pc ≠ Exited) (workers s).

(** The listing of consumers an event carries, and the consumer IDs that
    some successful listing among the events has shown. *)
Definition listingOf (e : Event) : Result (list Consumer) :=
  match e with
  | InstanceUp listing _ | InstanceDown listing _ | Tick _ listing => listing
  end.

Definition shown (events : list Event) (id : string) : Prop :=
  ∃ e consumers, e ∈ events ∧ listingOf e = Ok consumers ∧ id ∈ ID <$> consumers.

(** * Properties *)

(** ** Reasoning about the monad *)

Ltac run_m :=
  cbv [mbind M_bind mret M_ret get put call defer];
  cbn [returned after calls].

Ltac by_compute :=
  match goal with
  | |- ?P => apply (bool_decide_unpack P); vm_compute; exact I
  end.

Lemma Contains_true s x : Contains s x = true ↔ x ∈ s.
Proof. unfold Contains. apply bool_decide_eq_true. Qed.

Lemma Contains_false s x : Contains s x = false ↔ x ∉ s.
Proof. unfold Contains. apply bool_decide_eq_false. Qed.

Lemma elem_of_Append s xs x : x ∈ Append s xs ↔ x ∈ s ∨ x ∈ xs.
Proof. unfold Append. rewrite elem_of_union, elem_of_list_to_set. tauto. Qed.

Lemma elem_of_RemoveAll s xs x : x ∈ RemoveAll s xs ↔ x ∈ s ∧ x ∉ xs.
Proof. unfold RemoveAll. rewrite elem_of_difference, elem_of_list_to_set. tauto. Qed.

Lemma GetMembers_nil c : GetMembers c = [] ↔ members c = ∅.
Proof.
  unfold GetMembers. split.
  - intros H. by apply leibniz_equiv, elements_empty_inv.
  - intros ->. apply elements_empty.
Qed.

Lemma isMember_spec c instanceID :
  isMember (GetMembers c) instanceID = true ↔ instanceID ∈ members c.
Proof.
  unfold GetMembers. rewrite <- elem_of_elements.
  induction (elements (members c)) as [|member rest IH]; simpl.
  - rewrite elem_of_nil. split; [discriminate | tauto].
  - rewrite elem_of_cons. case_bool_decide as Heq.
    + subst. tauto.
    + rewrite IH. split; [tauto | intros [?|?]; congruence].
Qed.

Section DispatcherFacts.

Variable LocateKey : Consistent → string → string.

(** What the loop computes: the state is untouched, the two slices grow by
    the acquired and by the released IDs in listing order, and exactly the
    acquired IDs are added to the work queue. *)
Lemma partitionConsumers_spec consumers : ∀ toAdd toRemove d,
  partitionConsumers LocateKey consumers toAdd toRemove d =
  {| returned := (toAdd ++ filter (acquired LocateKey d) (ID <$> consumers),
                  toRemove ++ filter (released LocateKey d) (ID <$> consumers));
     after := d;
     calls := (λ id, WorkQueue_Add (ItemString id)) <$>
                filter (acquired LocateKey d) (ID <$> consumers) |}.
Proof.
  induction consumers as [|consumer rest IH]; intros toAdd toRemove d.
  - simpl. run_m. by rewrite !app_nil_r.
  - rewrite fmap_cons. simpl. run_m.
    case_bool_decide as Hown;
      destruct (Contains (consumerSet d) (ID consumer)) eqn:Hin; simpl;
      (apply Contains_true in Hin || apply Contains_false in Hin).
    + rewrite IH.
      rewrite (filter_cons_False (acquired LocateKey d)) by (unfold acquired; tauto).
      rewrite (filter_cons_False (released LocateKey d)) by (unfold released; tauto).
      done.
    + run_m. rewrite IH. cbn [returned after calls].
      rewrite (filter_cons_True (acquired LocateKey d)) by (unfold acquired; tauto).
      rewrite (filter_cons_False (released LocateKey d)) by (unfold released; tauto).
      by rewrite <- app_assoc.
    + rewrite IH.
      rewrite (filter_cons_False (acquired LocateKey d)) by (unfold acquired; tauto).
      rewrite (filter_cons_True (released LocateKey d)) by (unfold released; tauto).
      by rewrite <- app_assoc.
    + rewrite IH.
      rewrite (filter_cons_False (acquired LocateKey d)) by (unfold acquired; tauto).
      rewrite (filter_cons_False (released LocateKey d)) by (unfold released; tauto).
      done.
Qed.

(** [updateConsumerSet] on an empty ring: nothing is called, nothing changes. *)
Lemma updateConsumerSet_empty_ring listing d :
  GetMembers (consistent d) = [] →
  updateConsumerSet LocateKey listing d = {| returned := None; after := d; calls := [] |}.
Proof.
  intros Hempty. unfold updateConsumerSet. run_m. by rewrite Hempty.
Qed.

(** [updateConsumerSet] when the listing fails. *)
Lemma updateConsumerSet_list_error msg d :
  GetMembers (consistent d) ≠ [] →
  updateConsumerSet LocateKey (Err msg) d =
  {| returned := Some ("unable to list consumers: " +:+ msg);
     after := d; calls := [ConsumerDao_All] |}.
Proof.
  intros Hring. unfold updateConsumerSet. run_m.
  rewrite bool_decide_eq_false_2; [done|].
  by destruct (GetMembers (consistent d)).
Qed.

(** [updateConsumerSet] on a ring with members and a listing. *)
Lemma updateConsumerSet_listed consumers d :
  GetMembers (consistent d) ≠ [] →
  updateConsumerSet LocateKey (Ok consumers) d =
  {| returned := None;
     after := set_consumerSet
                (RemoveAll (Append (consumerSet d)
                              (filter (acquired LocateKey d) (ID <$> consumers)))
                   (filter (released LocateKey d) (ID <$> consumers))) d;
     calls := ConsumerDao_All ::
                ((λ id, WorkQueue_Add (ItemString id)) <$>
                   filter (acquired LocateKey d) (ID <$> consumers)) |}.
Proof.
  intros Hring. unfold updateConsumerSet. run_m.
  rewrite bool_decide_eq_false_2 by (by destruct (GetMembers (consistent d))).
  cbn [returned after calls]. rewrite partitionConsumers_spec.
  cbn [returned after calls app]. by rewrite app_nil_r.
Qed.

(** Membership in the consumer set after such a reconciliation. *)
Lemma updateConsumerSet_elem_of consumers d id :
  GetMembers (consistent d) ≠ [] →
  id ∈ consumerSet (after (updateConsumerSet LocateKey (Ok consumers) d)) ↔
  (id ∈ consumerSet d ∨ acquired LocateKey d id ∧ id ∈ ID <$> consumers) ∧
  ¬ (released LocateKey d id ∧ id ∈ ID <$> consumers).
Proof.
  intros Hring. rewrite updateConsumerSet_listed by done. cbn [after set_consumerSet consumerSet].
  by rewrite elem_of_RemoveAll, elem_of_Append, !list_elem_of_filter.
Qed.

(** No path of [updateConsumerSet] touches the ring or the instance ID. *)
Lemma updateConsumerSet_frame listing d :
  consistent (after (updateConsumerSet LocateKey listing d)) = consistent d ∧
  instanceID (after (updateConsumerSet LocateKey listing d)) = instanceID d.
Proof.
  destruct (decide (GetMembers (consistent d) = [])) as [Hempty|Hring].
  - by rewrite updateConsumerSet_empty_ring.
  - destruct listing as [consumers|msg].
    + by rewrite updateConsumerSet_listed.
    + by rewrite updateConsumerSet_list_error.
Qed.

End DispatcherFacts.

Section Claims.

Variable LocateKey : Consistent → string → string.

(** The outer loop of [check] only ever shrinks the ring. *)
Lemma removeInactive_spec members instances : ∀ d,
  let o := removeInactive members instances d in
  calls o = [] ∧ consumerSet (after o) = consumerSet d ∧
  instanceID (after o) = instanceID d.
Proof.
  induction members as [|member rest IH]; intros d; simpl; run_m; [done|].
  destruct (isMemberActive member instances); simpl.
  - apply IH.
  - destruct (IH (set_consistent (Remove member (consistent d)) d)) as (Hc & Hs & Hi).
    by rewrite Hc, Hs, Hi.
Qed.

Lemma check_unfold instances listing d :
  check LocateKey (Ok instances) listing d =
  let o1 := removeInactive (GetMembers (consistent d)) instances d in
  let o2 := updateConsumerSet LocateKey listing (after o1) in
  {| returned := tt; after := after o2;
     calls := InstanceDao_All :: calls o1 ++ calls o2 |}.
Proof. unfold check. run_m. simpl. by rewrite app_nil_r. Qed.

(** [check] leaves the consumer set alone, and adds nothing to the work
    queue, whenever the ring it ends with is empty and whenever the listing
    of consumers fails. *)
Lemma check_consumerSet_unchanged instances listing d :
  GetMembers (consistent (after (check LocateKey instances listing d))) = [] ∨
  (∃ msg, listing = Err msg) →
  consumerSet (after (check LocateKey instances listing d)) = consumerSet d ∧
  ∀ item, WorkQueue_Add item ∉ calls (check LocateKey instances listing d).
Proof.
  destruct instances as [instances|msg].
  - rewrite check_unfold. cbn zeta. cbn [after calls].
    destruct (removeInactive_spec (GetMembers (consistent d)) instances d)
      as (Hc & Hs & _).
    set (d1 := after (removeInactive _ _ d)) in *.
    rewrite Hc. cbn [app].
    destruct (updateConsumerSet_frame LocateKey listing d1) as [Hring _].
    rewrite Hring. intros Hcase.
    destruct (decide (GetMembers (consistent d1) = [])) as [Hempty|Hmembers].
    + rewrite updateConsumerSet_empty_ring by done. cbn [after calls].
      split; [done|]. intros item. by rewrite list_elem_of_singleton.
    + destruct Hcase as [?|[msg ->]]; [done|].
      rewrite updateConsumerSet_list_error by done. cbn [after calls].
      split; [done|]. intros item Hin.
      apply elem_of_cons in Hin as [?|Hin]; [done|].
      by apply list_elem_of_singleton in Hin.
  - intros _. unfold check. run_m. split; [done|].
    intros item Hin. by apply list_elem_of_singleton in Hin.
Qed.

(** With no member on the ring, neither membership signal "down" nor a tick
    changes anything. *)
Lemma handle_empty_ring e d :
  isInstanceUp e = false →
  members (consistent d) = ∅ →
  after (handle LocateKey e d) = d.
Proof.
  intros Hup Hempty. pose proof (proj2 (GetMembers_nil _) Hempty) as Hnil.
  destruct e as [listing r|listing r|instances listing]; [done| |].
  - unfold handle, OnInstanceDown. run_m. by rewrite Hnil.
  - unfold handle. destruct instances as [instances|msg].
    + rewrite check_unfold, Hnil. cbn [removeInactive]. run_m.
      by rewrite updateConsumerSet_empty_ring.
    + unfold check. by run_m.
Qed.

Lemma handleAll_empty_ring events : ∀ d,
  Forall (λ e, isInstanceUp e = false) events →
  members (consistent d) = ∅ →
  after (handleAll LocateKey events d) = d.
Proof.
  induction events as [|e rest IH]; intros d Hall Hempty; [done|].
  inversion Hall as [|? ? Hup Hrest]; subst.
  simpl. run_m. rewrite handle_empty_ring by done. by apply IH.
Qed.

(** The two membership signals, by whether the instance is on the ring. *)
Lemma OnInstanceUp_present listing r d :
  r ∈ members (consistent d) →
  OnInstanceUp LocateKey listing r d = {| returned := None; after := d; calls := [] |}.
Proof.
  intros Hin. apply isMember_spec in Hin. unfold OnInstanceUp. run_m. by rewrite Hin.
Qed.

Lemma OnInstanceUp_absent listing r d :
  r ∉ members (consistent d) →
  OnInstanceUp LocateKey listing r d =
  updateConsumerSet LocateKey listing (set_consistent (Add r (consistent d)) d).
Proof.
  intros Hout. unfold OnInstanceUp. run_m.
  destruct (isMember (GetMembers (consistent d)) r) eqn:Hscan.
  - by apply isMember_spec in Hscan.
  - cbn [returned after calls app].
    by destruct (updateConsumerSet LocateKey listing _).
Qed.

Lemma OnInstanceDown_absent listing r d :
  r ∉ members (consistent d) →
  OnInstanceDown LocateKey listing r d = {| returned := None; after := d; calls := [] |}.
Proof.
  intros Hout. unfold OnInstanceDown. run_m.
  destruct (isMember (GetMembers (consistent d)) r) eqn:Hscan; [|done].
  by apply isMember_spec in Hscan.
Qed.

Lemma OnInstanceDown_present listing r d :
  r ∈ members (consistent d) →
  OnInstanceDown LocateKey listing r d =
  updateConsumerSet LocateKey listing (set_consistent (Remove r (consistent d)) d).
Proof.
  intros Hin. apply isMember_spec in Hin. unfold OnInstanceDown. run_m.
  rewrite Hin. cbn [negb returned after calls app].
  by destruct (updateConsumerSet LocateKey listing _).
Qed.

Lemma OnInstanceUp_member listing r d :
  r ∈ members (consistent (after (OnInstanceUp LocateKey listing r d))).
Proof.
  destruct (decide (r ∈ members (consistent d))) as [Hin|Hout].
  - by rewrite OnInstanceUp_present.
  - rewrite OnInstanceUp_absent by done.
    destruct (updateConsumerSet_frame LocateKey listing
                (set_consistent (Add r (consistent d)) d)) as [-> _].
    simpl. apply elem_of_union_r. by apply elem_of_singleton.
Qed.

Lemma OnInstanceDown_not_member listing r d :
  r ∉ members (consistent (after (OnInstanceDown LocateKey listing r d))).
Proof.
  destruct (decide (r ∈ members (consistent d))) as [Hin|Hout].
  - rewrite OnInstanceDown_present by done.
    destruct (updateConsumerSet_frame LocateKey listing
                (set_consistent (Remove r (consistent d)) d)) as [-> _].
    simpl. rewrite elem_of_difference, elem_of_singleton. tauto.
  - by rewrite OnInstanceDown_absent.
Qed.

(** C1.  After [updateConsumerSet] has run on a ring with members and a
    successful listing, it has returned nil and, for every listed consumer
    [c]: if the ring places [c] on this instance and [c] was not in the
    consumer set, it is in the set afterwards; if the ring places [c]
    elsewhere and [c] was in the set, it is not in the set afterwards; in
    the two remaining cases its membership is what it was. *)
Theorem updateConsumerSet_listed_membership
    (d : HashDispatcher) (consumers : list Consumer) (c : Consumer) :
  GetMembers (consistent d) ≠ [] →
  c ∈ consumers →
  let o := updateConsumerSet LocateKey (Ok consumers) d in
  let mine := LocateKey (consistent d) (ID c) = instanceID d in
  returned o = None ∧
  (mine → ID c ∉ consumerSet d → ID c ∈ consumerSet (after o)) ∧
  (¬ mine → ID c ∈ consumerSet d → ID c ∉ consumerSet (after o)) ∧
  (¬ (mine ∧ ID c ∉ consumerSet d) → ¬ (¬ mine ∧ ID c ∈ consumerSet d) →
   (ID c ∈ consumerSet (after o) ↔ ID c ∈ consumerSet d)).
Proof.
  intros Hring Hlisted o mine.
  assert (ID c ∈ ID <$> consumers) as Hid by by apply list_elem_of_fmap_2.
  pose proof (updateConsumerSet_elem_of LocateKey consumers d (ID c) Hring) as Hmem.
  fold o in Hmem. unfold acquired, released in Hmem. fold mine in Hmem.
  split; [subst o; by rewrite updateConsumerSet_listed|].
  repeat split.
  - intros Hmine Hnew. apply Hmem. tauto.
  - intros Hother Hold Hafter. apply Hmem in Hafter. tauto.
  - intros Hafter. apply Hmem in Hafter. tauto.
  - intros Hbefore. apply Hmem. tauto.
Qed.

(** C2.  During a reconciliation the ID of a consumer is added to the work
    queue exactly when it is newly acquired: the ring has members, the
    listing succeeded and holds the consumer, the ring places it on this
    instance, and it was not in the consumer set.  A consumer that leaves
    the consumer set is not added to the queue. *)
Theorem enqueue_iff_newly_acquired
    (d : HashDispatcher) (listing : Result (list Consumer)) (id : string) :
  let o := updateConsumerSet LocateKey listing d in
  (WorkQueue_Add (ItemString id) ∈ calls o ↔
   GetMembers (consistent d) ≠ [] ∧
   ∃ consumers, listing = Ok consumers ∧ id ∈ ID <$> consumers ∧
     LocateKey (consistent d) id = instanceID d ∧ id ∉ consumerSet d) ∧
  (id ∈ consumerSet d → id ∉ consumerSet (after o) →
   WorkQueue_Add (ItemString id) ∉ calls o).
Proof.
  intros o.
  assert (WorkQueue_Add (ItemString id) ∈ calls o ↔
          GetMembers (consistent d) ≠ [] ∧
          ∃ consumers, listing = Ok consumers ∧ id ∈ ID <$> consumers ∧
            LocateKey (consistent d) id = instanceID d ∧ id ∉ consumerSet d) as Hiff.
  { subst o. destruct (decide (GetMembers (consistent d) = [])) as [Hempty|Hring].
    - rewrite updateConsumerSet_empty_ring by done. cbn [calls].
      split; [intros Hin; by apply elem_of_nil in Hin | tauto].
    - destruct listing as [consumers|msg].
      + rewrite updateConsumerSet_listed by done. cbn [calls].
        rewrite elem_of_cons, list_elem_of_fmap. split.
        * intros [?|(id' & Heq & Hin)]; [done|]. inversion Heq; subst id'.
          apply list_elem_of_filter in Hin as [[Hmine Hnew] Hin]. eauto 10.
        * intros (_ & consumers' & Heq & Hin & Hmine & Hnew).
          inversion Heq; subst consumers'. right. exists id. split; [done|].
          apply list_elem_of_filter. by repeat split.
      + rewrite updateConsumerSet_list_error by done. cbn [calls].
        rewrite list_elem_of_singleton. split; [done|].
        by intros (_ & consumers & ? & _). }
  split; [exact Hiff|].
  intros Hold _ Hadd. apply Hiff in Hadd as (_ & consumers & _ & _ & _ & Hnew).
  by apply Hnew.
Qed.

(** C3, as amended.  Until a first instance is registered (from a new
    dispatcher, over any run of ticks and "down" signals) the ring has no
    member and [Dispatch] answers false for every consumer ID; and a
    reconciliation on a ring without members, be it [updateConsumerSet]
    itself or a tick of [check] that ends on such a ring, leaves the
    consumer set as it was. *)
Theorem empty_ring_keeps_consumerSet
    (instanceID : string) (events : list Event) (consumerID : string)
    (d : HashDispatcher) (instances : Result (list ServerInstance))
    (listing : Result (list Consumer)) :
  (Forall (λ e, isInstanceUp e = false) events →
   let d0 := after (handleAll LocateKey events (NewHashDispatcher instanceID)) in
   GetMembers (consistent d0) = [] ∧ Dispatch consumerID d0 = false) ∧
  (GetMembers (consistent d) = [] →
   after (updateConsumerSet LocateKey listing d) = d) ∧
  (GetMembers (consistent (after (check LocateKey instances listing d))) = [] →
   consumerSet (after (check LocateKey instances listing d)) = consumerSet d).
Proof.
  split; [|split].
  - intros Hdown. cbn zeta. rewrite handleAll_empty_ring by done.
    split; [by apply GetMembers_nil|].
    unfold Dispatch. apply Contains_false. simpl. apply not_elem_of_empty.
  - intros Hempty. by rewrite updateConsumerSet_empty_ring.
  - intros Hempty. apply check_consumerSet_unchanged. by left.
Qed.

(** C4, as amended.  After a reconciliation on a ring with members and a
    successful listing, a listed consumer ID is in the consumer set exactly
    when the ring, as it stands at that reconciliation, places it on this
    instance; an ID that is not listed keeps the membership it had. *)
Theorem owned_iff_located_when_listed
    (d : HashDispatcher) (consumers : list Consumer) (id : string) :
  GetMembers (consistent d) ≠ [] →
  let o := updateConsumerSet LocateKey (Ok consumers) d in
  (id ∈ ID <$> consumers →
   (id ∈ consumerSet (after o) ↔ LocateKey (consistent (after o)) id = instanceID (after o))) ∧
  (id ∉ ID <$> consumers →
   (id ∈ consumerSet (after o) ↔ id ∈ consumerSet d)).
Proof.
  intros Hring o.
  pose proof (updateConsumerSet_elem_of LocateKey consumers d id Hring) as Hmem.
  destruct (updateConsumerSet_frame LocateKey (Ok consumers) d) as [Hc Hi].
  fold o in Hmem, Hc, Hi. rewrite Hc, Hi. unfold acquired, released in Hmem.
  split; intros Hlisted; rewrite Hmem.
  - destruct (decide (LocateKey (consistent d) id = instanceID d));
      destruct (decide (id ∈ consumerSet d)); tauto.
  - tauto.
Qed.

(** C6.  When the listing of consumers fails during a reconciliation,
    [updateConsumerSet] returns an error, the dispatcher is exactly as it
    was, and nothing has been added to the work queue. *)
Theorem list_failure_changes_nothing (d : HashDispatcher) (msg : string) :
  GetMembers (consistent d) ≠ [] →
  let o := updateConsumerSet LocateKey (Err msg) d in
  returned o = Some ("unable to list consumers: " +:+ msg) ∧
  after o = d ∧
  calls o = [ConsumerDao_All] ∧
  ∀ item, WorkQueue_Add item ∉ calls o.
Proof.
  intros Hring o. subst o. rewrite updateConsumerSet_list_error by done.
  cbn [returned after calls]. repeat split.
  intros item Hin. by apply list_elem_of_singleton in Hin.
Qed.

(** C7.  [OnInstanceUp r] with [r] on the ring does nothing and returns
    nil: no call is made, so no reconciliation runs.  [OnInstanceDown r]
    with [r] off the ring likewise.  Hence a signal sent a second time
    finds the dispatcher as the first one left it and changes nothing. *)
Theorem membership_signals_idempotent
    (d : HashDispatcher) (r : string) (listing listing' : Result (list Consumer)) :
  (r ∈ GetMembers (consistent d) →
   OnInstanceUp LocateKey listing r d = {| returned := None; after := d; calls := [] |}) ∧
  (r ∉ GetMembers (consistent d) →
   OnInstanceDown LocateKey listing r d = {| returned := None; after := d; calls := [] |}) ∧
  (let d1 := after (OnInstanceUp LocateKey listing r d) in
   OnInstanceUp LocateKey listing' r d1 = {| returned := None; after := d1; calls := [] |}) ∧
  (let d1 := after (OnInstanceDown LocateKey listing r d) in
   OnInstanceDown LocateKey listing' r d1 = {| returned := None; after := d1; calls := [] |}).
Proof.
  unfold GetMembers. rewrite elem_of_elements. repeat split.
  - apply OnInstanceUp_present.
  - apply OnInstanceDown_absent.
  - apply OnInstanceUp_present, OnInstanceUp_member.
  - apply OnInstanceDown_absent, OnInstanceDown_not_member.
Qed.

End Claims.

(** ** The resync workers *)

Lemma times_nil c : times c [] = 0.
Proof. done. Qed.

Lemma times_cons_eq c log : times c (c :: log) = S (times c log).
Proof. unfold times. by rewrite filter_cons_True. Qed.

Lemma times_cons_ne c c' log : c' ≠ c → times c (c' :: log) = times c log.
Proof. intros Hne. unfold times. by rewrite filter_cons_False. Qed.

Lemma times_app c log1 log2 : times c (log1 ++ log2) = times c log1 + times c log2.
Proof. unfold times. by rewrite filter_app, length_app. Qed.

Ltac count_calls :=
  repeat (rewrite times_cons_eq || rewrite times_cons_ne by done);
  try rewrite times_nil.

(** The three ways through [processNextResync] once an item was retrieved. *)
Lemma processNextResync_malformed tag resync d :
  processNextResync (ItemOther tag, false) resync d =
  {| returned := true; after := d;
     calls := [WorkQueue_Get; WorkQueue_Forget (ItemOther tag);
               WorkQueue_Done (ItemOther tag)] |}.
Proof. done. Qed.

Lemma processNextResync_failure id msg d :
  processNextResync (ItemString id, false) (Some msg) d =
  {| returned := true; after := d;
     calls := [WorkQueue_Get; SourceClient_Resync [id];
               WorkQueue_AddRateLimited (ItemString id);
               WorkQueue_Done (ItemString id)] |}.
Proof. done. Qed.

Lemma processNextResync_success id d :
  processNextResync (ItemString id, false) None d =
  {| returned := true; after := d;
     calls := [WorkQueue_Get; SourceClient_Resync [id];
               WorkQueue_Done (ItemString id)] |}.
Proof. done. Qed.

Lemma processNextResync_shutdown item resync d :
  processNextResync (item, true) resync d =
  {| returned := false; after := d; calls := [WorkQueue_Get] |}.
Proof. done. Qed.

(** A turn of the worker loop that does not end it. *)
Lemma resyncWorker_continue got resync rest d :
  returned (processNextResync got resync d) = true →
  after (processNextResync got resync d) = d →
  resyncWorker ((got, resync) :: rest) d =
  {| returned := returned (resyncWorker rest d);
     after := after (resyncWorker rest d);
     calls := calls (processNextResync got resync d) ++ calls (resyncWorker rest d) |}.
Proof.
  intros Hret Hafter. cbn [resyncWorker]. unfold mbind, M_bind.
  cbn zeta. by rewrite Hret, Hafter.
Qed.

(** C8.  When [Resync] fails for a string consumer ID, the worker calls
    [AddRateLimited] on the item and [processNextResync] returns true.
    Nothing caps the retries: over any number of failed turns for the same
    ID the worker re-adds the item every time, never forgets it, and is
    still in its loop. *)
Theorem resync_failure_requeues_without_cap
    (id : string) (msg : string) (msgs : list string) (d : HashDispatcher) :
  (let o := processNextResync (ItemString id, false) (Some msg) d in
   returned o = true ∧
   calls o = [WorkQueue_Get; SourceClient_Resync [id];
              WorkQueue_AddRateLimited (ItemString id);
              WorkQueue_Done (ItemString id)]) ∧
  (let failing := (λ m, (ItemString id, false, Some m)) <$> msgs in
   let o := resyncWorker failing d in
   returned o = false ∧
   times (WorkQueue_AddRateLimited (ItemString id)) (calls o) = length msgs ∧
   times (SourceClient_Resync [id]) (calls o) = length msgs ∧
   times (WorkQueue_Forget (ItemString id)) (calls o) = 0).
Proof.
  split; [done|]. cbn zeta.
  induction msgs as [|m rest (IHr & IHa & IHs & IHf)]; [done|].
  rewrite fmap_cons, resyncWorker_continue by done.
  rewrite processNextResync_failure. cbn [returned calls app].
  split; [done|]. count_calls. by rewrite IHa, IHs, IHf.
Qed.

(** C9.  An item that is not a string is forgotten and skipped: the worker
    calls [Forget] on it, then the deferred [Done]; it calls neither
    [Resync] nor [Add] nor [AddRateLimited]; [processNextResync] returns
    true, and the worker loop goes on to the next item. *)
Theorem malformed_item_forgotten_and_skipped
    (tag : nat) (resync : error) (rest : list (Item * bool * error))
    (d : HashDispatcher) :
  let o := processNextResync (ItemOther tag, false) resync d in
  returned o = true ∧ after o = d ∧
  calls o = [WorkQueue_Get; WorkQueue_Forget (ItemOther tag);
             WorkQueue_Done (ItemOther tag)] ∧
  (∀ ids, SourceClient_Resync ids ∉ calls o) ∧
  (∀ item, (WorkQueue_Add item ∉ calls o) ∧ (WorkQueue_AddRateLimited item ∉ calls o)) ∧
  calls (resyncWorker ((ItemOther tag, false, resync) :: rest) d) =
    calls o ++ calls (resyncWorker rest d).
Proof.
  cbn zeta. rewrite resyncWorker_continue by done.
  rewrite processNextResync_malformed. cbn [returned after calls].
  repeat split.
  - intros ids Hin. repeat (apply elem_of_cons in Hin as [?|Hin]; [done|]).
    by apply elem_of_nil in Hin.
  - intros Hin. repeat (apply elem_of_cons in Hin as [?|Hin]; [done|]).
    by apply elem_of_nil in Hin.
  - intros Hin. repeat (apply elem_of_cons in Hin as [?|Hin]; [done|]).
    by apply elem_of_nil in Hin.
Qed.

(** C10.  Whatever item [Get] hands out with [shutdown = false] (malformed,
    or a string whose resync fails or succeeds), [processNextResync] calls
    [Done] on it exactly once, as its last call, and calls [Done] on
    nothing else. *)
Theorem retrieved_item_done_exactly_once
    (item : Item) (resync : error) (d : HashDispatcher) :
  let o := processNextResync (item, false) resync d in
  times (WorkQueue_Done item) (calls o) = 1 ∧
  last (calls o) = Some (WorkQueue_Done item) ∧
  (∀ item', WorkQueue_Done item' ∈ calls o → item' = item) ∧
  returned o = true.
Proof.
  cbn zeta. destruct item as [id|tag]; [destruct resync as [msg|]|].
  - rewrite processNextResync_failure. cbn [returned calls].
    split; [by count_calls|]. repeat split.
    intros item' Hin. repeat (apply elem_of_cons in Hin as [Heq|Hin]; [try done|]).
    + congruence.
    + by apply elem_of_nil in Hin.
  - rewrite processNextResync_success. cbn [returned calls].
    split; [by count_calls|]. repeat split.
    intros item' Hin. repeat (apply elem_of_cons in Hin as [Heq|Hin]; [try done|]).
    + congruence.
    + by apply elem_of_nil in Hin.
  - rewrite processNextResync_malformed. cbn [returned calls].
    split; [by count_calls|]. repeat split.
    intros item' Hin. repeat (apply elem_of_cons in Hin as [Heq|Hin]; [try done|]).
    + congruence.
    + by apply elem_of_nil in Hin.
Qed.

Lemma live_nil : live [] = 0.
Proof. done. Qed.

Lemma live_app ws pc : live (ws ++ [pc]) = live ws + live [pc].
Proof. unfold live. by rewrite filter_app, length_app. Qed.

Lemma live_cons_exited ws : live (Exited :: ws) = live ws.
Proof. unfold live. by rewrite filter_cons_False by (intros H; by apply H). Qed.

Lemma live_cons_running pc ws : pc ≠ Exited → live (pc :: ws) = S (live ws).
Proof. intros Hpc. unfold live. by rewrite filter_cons_True. Qed.

Lemma live_insert_running ws : ∀ i pc pc',
  ws !! i = Some pc → pc ≠ Exited → pc' ≠ Exited →
  live (<[i := pc']> ws) = live ws.
Proof.
  induction ws as [|w ws IH]; intros i pc pc' Hi Hpc Hpc'; [done|].
  destruct i as [|i]; simpl in *.
  - inversion Hi; subst. by rewrite !live_cons_running.
  - destruct (decide (w = Exited)) as [->|Hw].
    + rewrite !live_cons_exited. by eapply IH.
    + rewrite !live_cons_running by done. f_equal. by eapply IH.
Qed.

Lemma live_insert_exited ws : ∀ i pc,
  ws !! i = Some pc → pc ≠ Exited →
  live ws = S (live (<[i := Exited]> ws)).
Proof.
  induction ws as [|w ws IH]; intros i pc Hi Hpc; [done|].
  destruct i as [|i]; simpl in *.
  - inversion Hi; subst. by rewrite live_cons_running, live_cons_exited.
  - destruct (decide (w = Exited)) as [->|Hw].
    + rewrite !live_cons_exited. by eapply IH.
    + rewrite !live_cons_running by done. f_equal. by eapply IH.
Qed.

Lemma live_0_all_exited ws : live ws = 0 → Forall (λ pc, pc = Exited) ws.
Proof.
  induction ws as [|w ws IH]; intros Hlive; [constructor|].
  destruct (decide (w = Exited)) as [->|Hw].
  - rewrite live_cons_exited in Hlive. constructor; [done|by apply IH].
  - by rewrite live_cons_running in Hlive.
Qed.

Lemma initial_inv : startInv initial ∧ workersInv initial.
Proof. by repeat split. Qed.

Lemma Start_step_inv s s' :
  Start_step s = Some s' → startInv s ∧ workersInv s → startInv s' ∧ workersInv s'.
Proof.
  unfold Start_step, startInv, workersInv. destruct s as [cd sd q spc wpc n ws]; simpl.
  intros Hstep [([Hl1 Hl2] & Hsd & Hret & [Hq1 Hq2]) Hw].
  destruct spc; [| |destruct cd; [|done]| |done]; simplify_eq; simpl.
  - rewrite Hl1 in Hw by done. repeat split; intros; intuition congruence.
  - assert (wpc ≠ NotLaunched) by (intros Heq; by apply Hl2 in Heq).
    repeat split; intros; intuition congruence.
  - repeat split; intros; intuition congruence.
  - assert (wpc ≠ NotLaunched) by (intros Heq; by apply Hl2 in Heq).
    repeat split; intros; intuition congruence.
Qed.

Lemma startStatusResyncWorkers_step_inv s s' :
  startStatusResyncWorkers_step s = Some s' →
  startInv s ∧ workersInv s → startInv s' ∧ workersInv s'.
Proof.
  unfold startStatusResyncWorkers_step, startInv, workersInv, maxConcurrentResyncHandlers.
  destruct s as [cd sd q spc wpc n ws]; simpl.
  intros Hstep [([Hl1 Hl2] & Hsd & Hret & [Hq1 Hq2]) Hw].
  destruct wpc as [| |i| |]; try case_bool_decide; simplify_eq; simpl.
  - destruct Hw as [-> ->]. repeat split; intros; try (intuition congruence). lia.
  - destruct Hw as (Hlen & Hle & Hwg).
    rewrite length_app, live_app, live_cons_running, live_nil by done. simpl.
    repeat split; intros; try (intuition congruence); lia.
  - destruct Hw as (Hlen & Hle & Hwg).
    repeat split; intros; try (intuition congruence); lia.
  - repeat split; intros; try (intuition congruence).
Qed.

Lemma worker_step_inv i s s' :
  worker_step i s = Some s' →
  startInv s ∧ workersInv s → startInv s' ∧ workersInv s'.
Proof.
  unfold worker_step, startInv, workersInv.
  destruct s as [cd sd q spc wpc n ws]; simpl.
  intros Hstep [Hstart Hw].
  destruct (ws !! i) as [[|item|]|] eqn:Hi; [| | done | done].
  - destruct q as [|item rest].
    + destruct sd; simplify_eq; simpl. split; [done|].
      assert (live ws = S (live (<[i := Exited]> ws))) as Hlive
        by by apply (live_insert_exited ws i InGet).
      rewrite length_insert.
      destruct wpc; try (destruct Hw as [-> _]; done);
        repeat split; try (intuition congruence); lia.
    + simplify_eq; simpl. split; [done|].
      rewrite length_insert, (live_insert_running ws i InGet) by done.
      destruct wpc; try done; by destruct Hw as [-> _].
  - simplify_eq; simpl. split; [done|].
    rewrite length_insert, (live_insert_running ws i (Processing item)) by done.
    destruct wpc; try done; by destruct Hw as [-> _].
Qed.

Lemma step_inv t s s' :
  step t s = Some s' → startInv s ∧ workersInv s → startInv s' ∧ workersInv s'.
Proof.
  destruct t as [|item| | |i]; simpl.
  - intros [= <-] [(Hl & Hsd & Hret & Hq) Hw]. by repeat split; try apply Hl; try apply Hq.
  - intros [= <-]. done.
  - apply Start_step_inv.
  - apply startStatusResyncWorkers_step_inv.
  - apply worker_step_inv.
Qed.

Lemma run_inv schedule : ∀ s s',
  run schedule s = Some s' → startInv s ∧ workersInv s → startInv s' ∧ workersInv s'.
Proof.
  induction schedule as [|t rest IH]; intros s s' Hrun Hinv; simpl in Hrun.
  - by simplify_eq.
  - destruct (step t s) as [s1|] eqn:Hstep; [|done].
    eapply IH; [done|]. by eapply step_inv.
Qed.

(** C5, as amended.  In every state the system reaches: [Start] has
    returned only if ctx was cancelled and the queue was then shut down
    (and the queue is shut down only after cancellation); at [<-ctx.Done()]
    it cannot move while ctx is not cancelled; once ctx is cancelled,
    [Start] on its own, whatever the workers are doing and without any step
    of theirs, runs its remaining statements, shuts the queue down and
    returns, leaving the workers and the wait group as they are; and it is
    [startStatusResyncWorkers], in its own goroutine, that has returned only
    if all ten workers were launched and have left their loop. *)
Theorem Start_waits_for_cancel_only (schedule : list Thread) (s : System) :
  run schedule initial = Some s →
  (startPC s = StartReturned → ctxDone s = true ∧ shuttingDown s = true) ∧
  (shuttingDown s = true → ctxDone s = true) ∧
  (startPC s = AtCtxDone → ctxDone s = false → step StartThread s = None) ∧
  (ctxDone s = true →
   ∃ s', run (replicate (stepsToReturn (startPC s)) StartThread) s = Some s' ∧
         startPC s' = StartReturned ∧ shuttingDown s' = true ∧
         workers s' = workers s ∧ wg s' = wg s) ∧
  (workersPC s = WorkersReturned →
   length (workers s) = maxConcurrentResyncHandlers ∧
   Forall (λ pc, pc = Exited) (workers s)).
Proof.
  intros Hrun.
  destruct (run_inv schedule initial s Hrun initial_inv)
    as [(_ & _ & Hret & [Hq1 Hq2]) Hw].
  split; [|split; [|split; [|split; [|intros Hdone; split]]]].
  - intros Hstart. split; [by apply Hret | by apply Hq2].
  - intros Hsd. by apply Hret, Hq1.
  - intros Hpc Hctx. simpl. unfold Start_step. by rewrite Hpc, Hctx.
  - clear Hrun Hw Hret Hq1. destruct s as [cd sd q spc wpc n ws]. simpl in *.
    intros ->. destruct spc; simpl.
    + eexists. split; [reflexivity|]. done.
    + eexists. split; [reflexivity|]. done.
    + eexists. split; [reflexivity|]. done.
    + eexists. split; [reflexivity|]. done.
    + eexists. split; [reflexivity|]. simpl. by rewrite Hq2.
  - unfold workersInv in Hw. rewrite Hdone in Hw. tauto.
  - unfold workersInv in Hw. rewrite Hdone in Hw.
    destruct Hw as (_ & Hwg & Hzero). apply live_0_all_exited. congruence.
Qed.

(** ** Worked examples *)

(** C1 at work: B has joined the ring; A reconciles over the listing
    [c1; c22; c333] and lets go of [c22], which the ring now places on B. *)
Lemma updateConsumerSet_releases_c22 :
  ID c22 ∉ consumerSet (after (updateConsumerSet byLength (Ok [c1; c22; c333]) staleA)).
Proof.
  assert (GetMembers (consistent staleA) ≠ []) as Hring by by_compute.
  assert (c22 ∈ [c1; c22; c333]) as Hlisted by by_compute.
  destruct (updateConsumerSet_listed_membership byLength staleA _ c22 Hring Hlisted)
    as (_ & _ & Hrelease & _).
  apply Hrelease; by_compute.
Defined.

(** C2 at work: in that reconciliation [c333] is newly acquired, and added
    to the work queue. *)
Lemma updateConsumerSet_enqueues_c333 :
  WorkQueue_Add (ItemString "c333") ∈
    calls (updateConsumerSet byLength (Ok [c1; c22; c333]) staleA).
Proof.
  apply (proj1 (enqueue_iff_newly_acquired byLength staleA (Ok [c1; c22; c333]) "c333")).
  split; [by_compute|]. exists [c1; c22; c333]. repeat split; by_compute.
Defined.

(** C3 as stated fails: A registers, takes [c1] and [c22], then is signalled
    down.  The ring is empty and [Dispatch] still answers true. *)
Lemma Dispatch_true_on_emptied_ring :
  GetMembers (consistent emptiedA) = [] ∧ Dispatch "c1" emptiedA = true.
Proof. split; vm_compute; reflexivity. Qed.

(** C3 as amended, at work: a tick and a "down" signal before any instance
    was registered. *)
Lemma Dispatch_false_before_first_instance :
  Dispatch "c1"
    (after (handleAll byLength
              [Tick (Ok [{| InstanceID := "A" |}]) (Ok [c1]); InstanceDown (Ok [c1]) "A"]
              (NewHashDispatcher "A"))) = false.
Proof.
  refine (proj2 (proj1 (empty_ring_keeps_consumerSet byLength "A"
    [Tick (Ok [{| InstanceID := "A" |}]) (Ok [c1]); InstanceDown (Ok [c1]) "A"]
    "c1" (NewHashDispatcher "A") (Ok []) (Ok [])) _)).
  repeat constructor.
Defined.

(** C4 as stated fails off the listing: A is the only member of the ring,
    so the ring places every key on A, and A reconciles over a listing
    that holds only [c1].  [c333] is placed on A and is not in the
    consumer set. *)
Lemma owned_iff_located_fails_off_listing :
  let o := updateConsumerSet byLength (Ok [c1]) aloneA in
  returned o = None ∧
  GetMembers (consistent (after o)) = ["A"] ∧
  instanceID (after o) = "A" ∧
  ¬ ("c333" ∈ consumerSet (after o) ↔
     byLength (consistent (after o)) "c333" = instanceID (after o)).
Proof.
  cbn zeta. split; [by vm_compute|]. split; [by vm_compute|].
  split; [by vm_compute|]. intros [_ Hback].
  assert ("c333" ∉ consumerSet (after (updateConsumerSet byLength (Ok [c1]) aloneA)))
    as Hout by by_compute.
  apply Hout, Hback. by vm_compute.
Qed.

(** C4 as amended, at work: [c22] is listed and, once reconciled, no longer
    in the set, in step with the ring. *)
Lemma owned_iff_located_c22 :
  let o := updateConsumerSet byLength (Ok [c1; c22; c333]) staleA in
  "c22" ∈ consumerSet (after o) ↔
  byLength (consistent (after o)) "c22" = instanceID (after o).
Proof.
  assert (GetMembers (consistent staleA) ≠ []) as Hring by by_compute.
  apply (owned_iff_located_when_listed byLength staleA [c1; c22; c333] "c22" Hring).
  by_compute.
Defined.

(** C6 at work: the listing fails on a ring with two members. *)
Lemma list_failure_on_staleA :
  after (updateConsumerSet byLength (Err "connection refused") staleA) = staleA.
Proof.
  assert (GetMembers (consistent staleA) ≠ []) as Hring by by_compute.
  apply (list_failure_changes_nothing byLength staleA "connection refused" Hring).
Defined.

(** C7 at work: A is on the ring already and is signalled up again. *)
Lemma OnInstanceUp_again :
  OnInstanceUp byLength (Ok [c1]) "A" aloneA =
  {| returned := None; after := aloneA; calls := [] |}.
Proof.
  apply (proj1 (membership_signals_idempotent byLength aloneA "A" (Ok [c1]) (Ok [c1]))).
  by_compute.
Defined.

(** C5 as stated fails: ctx is cancelled with the ten workers waiting in
    [Get]; [Start] shuts the queue down and returns while every worker is
    still in its loop and [startStatusResyncWorkers] is still in [wg.Wait]. *)
Lemma Start_returns_before_workers_exit :
  run hastyReturn initial =
  Some {| ctxDone := true; shuttingDown := true; queue := [];
          startPC := StartReturned; workersPC := AtWgWait;
          wg := 10; workers := replicate 10 InGet |}.
Proof. vm_compute. reflexivity. Qed.

(** C5 as amended, at work: the run in which every worker sees the
    shutdown and leaves, after which [startStatusResyncWorkers] returns. *)
Lemma gracefulRun_ends_with_all_exited :
  let s := {| ctxDone := true; shuttingDown := true; queue := [];
              startPC := StartReturned; workersPC := WorkersReturned;
              wg := 0; workers := replicate 10 Exited |} in
  length (workers s) = maxConcurrentResyncHandlers ∧
  Forall (λ pc, pc = Exited) (workers s).
Proof.
  intros s.
  assert (run gracefulRun initial = Some s) as Hrun by (vm_compute; reflexivity).
  destruct (Start_waits_for_cancel_only gracefulRun s Hrun) as (_ & _ & _ & _ & Hall).
  apply Hall. reflexivity.
Defined.

(** ** Further properties of the reconciler *)

Lemma isMemberActive_spec member instances :
  isMemberActive member instances = true ↔ member ∈ InstanceID <$> instances.
Proof.
  induction instances as [|instance rest IH]; simpl.
  - rewrite elem_of_nil. split; [discriminate | tauto].
  - rewrite elem_of_cons. case_bool_decide as Heq.
    + tauto.
    + rewrite IH. tauto.
Qed.

Section ReconcilerFacts.

Variable LocateKey : Consistent → string → string.

(** The ring after the outer loop of [check]. *)
Lemma removeInactive_members snapshot instances : ∀ d m,
  m ∈ members (consistent (after (removeInactive snapshot instances d))) ↔
  m ∈ members (consistent d) ∧
  ¬ (m ∈ snapshot ∧ isMemberActive m instances = false).
Proof.
  induction snapshot as [|member rest IH]; intros d m; simpl; run_m.
  - rewrite elem_of_nil. tauto.
  - destruct (isMemberActive member instances) eqn:Hactive; simpl.
    + rewrite IH, elem_of_cons. split.
      * intros [Hm Hrest]. split; [done|]. intros [[->|Hin] Hdead]; [congruence|tauto].
      * intros [Hm Hkeep]. split; [done|]. tauto.
    + rewrite IH, elem_of_cons. simpl.
      rewrite elem_of_difference, elem_of_singleton. split.
      * intros [[Hm Hne] Hrest]. split; [done|]. tauto.
      * intros [Hm Hkeep]. split; [split; [done|]|].
        -- intros ->. tauto.
        -- tauto.
Qed.

(** A listed consumer after a reconciliation on a ring with members. *)
Lemma listed_owned_iff consumers d id :
  GetMembers (consistent d) ≠ [] →
  id ∈ ID <$> consumers →
  id ∈ consumerSet (after (updateConsumerSet LocateKey (Ok consumers) d)) ↔
  LocateKey (consistent d) id = instanceID d.
Proof.
  intros Hring Hlisted. rewrite updateConsumerSet_elem_of by done.
  unfold acquired, released.
  destruct (decide (LocateKey (consistent d) id = instanceID d));
    destruct (decide (id ∈ consumerSet d)); tauto.
Qed.

(** X1.  A tick takes no listed instance off the ring and puts no name on
    it: a member whose ID is among the listed instances is still a member
    after [check], and every member after [check] was one before. *)
Theorem check_keeps_listed_members
    (instances : list ServerInstance) (listing : Result (list Consumer))
    (d : HashDispatcher) (m : string) :
  let d' := after (check LocateKey (Ok instances) listing d) in
  (m ∈ members (consistent d) → m ∈ InstanceID <$> instances →
   m ∈ members (consistent d')) ∧
  (m ∈ members (consistent d') → m ∈ members (consistent d)).
Proof.
  cbn zeta. rewrite check_unfold. cbn zeta. cbn [after].
  destruct (updateConsumerSet_frame LocateKey listing
              (after (removeInactive (GetMembers (consistent d)) instances d)))
    as [-> _].
  rewrite removeInactive_members. split.
  - intros Hm Hlisted. split; [done|]. intros [_ Hdead].
    apply isMemberActive_spec in Hlisted. congruence.
  - tauto.
Qed.

(** When the listing of instances fails, a tick stops there: the
    dispatcher is as it was, the consumers are not listed and nothing is
    added to the work queue. *)
Lemma check_instances_failure_stops_tick
    (msg : string) (listing : Result (list Consumer)) (d : HashDispatcher) :
  let o := check LocateKey (Err msg) listing d in
  after o = d ∧ (ConsumerDao_All ∉ calls o) ∧ ∀ item, WorkQueue_Add item ∉ calls o.
Proof.
  unfold check. run_m. split; [done|].
  split; [|intros item]; intros Hin; by apply list_elem_of_singleton in Hin.
Qed.

(** X2.  After a tick whose two listings succeed and which leaves members
    on the ring, a listed consumer is in the consumer set exactly when the
    pruned ring places it on this instance. *)
Theorem check_reconciles_on_pruned_ring
    (instances : list ServerInstance) (consumers : list Consumer)
    (d : HashDispatcher) (id : string) :
  let d' := after (check LocateKey (Ok instances) (Ok consumers) d) in
  GetMembers (consistent d') ≠ [] →
  id ∈ ID <$> consumers →
  id ∈ consumerSet d' ↔ LocateKey (consistent d') id = instanceID d'.
Proof.
  cbn zeta. rewrite check_unfold. cbn zeta. cbn [after].
  set (d1 := after (removeInactive (GetMembers (consistent d)) instances d)).
  destruct (updateConsumerSet_frame LocateKey (Ok consumers) d1) as [-> ->].
  apply listed_owned_iff.
Qed.

Lemma filter_none {A} (P : A → Prop) `{∀ x, Decision (P x)} (l : list A) :
  Forall (λ x, ¬ P x) l → filter P l = [].
Proof.
  induction 1 as [|x l Hx _ IH]; [done|]. by rewrite filter_cons_False.
Qed.

Lemma set_consumerSet_same d : set_consumerSet (consumerSet d) d = d.
Proof. by destruct d. Qed.

(** X3.  Reconciling twice over the same listing is reconciling once: the
    second run lists the consumers, changes nothing and adds nothing to the
    work queue. *)
Theorem updateConsumerSet_twice (consumers : list Consumer) (d : HashDispatcher) :
  GetMembers (consistent d) ≠ [] →
  let d1 := after (updateConsumerSet LocateKey (Ok consumers) d) in
  updateConsumerSet LocateKey (Ok consumers) d1 =
  {| returned := None; after := d1; calls := [ConsumerDao_All] |}.
Proof.
  intros Hring d1.
  destruct (updateConsumerSet_frame LocateKey (Ok consumers) d) as [Hc Hi].
  fold d1 in Hc, Hi.
  assert (GetMembers (consistent d1) ≠ []) as Hring1 by by rewrite Hc.
  assert (∀ id, id ∈ ID <$> consumers →
            id ∈ consumerSet d1 ↔ LocateKey (consistent d1) id = instanceID d1)
    as Hsettled.
  { intros id Hlisted. rewrite Hc, Hi. by apply listed_owned_iff. }
  rewrite updateConsumerSet_listed by done.
  rewrite (filter_none (acquired LocateKey d1)), (filter_none (released LocateKey d1)).
  - unfold Append, RemoveAll. simpl.
    by rewrite union_empty_r_L, difference_empty_L, set_consumerSet_same.
  - apply Forall_forall. intros id Hlisted [Hother Hin].
    by apply Hother, Hsettled.
  - apply Forall_forall. intros id Hlisted [Hmine Hout].
    by apply Hout, Hsettled.
Qed.

(** The ring after either membership signal, whatever the listing answers. *)
Lemma OnInstanceUp_members listing r d m :
  m ∈ members (consistent (after (OnInstanceUp LocateKey listing r d))) ↔
  m ∈ members (consistent d) ∨ m = r.
Proof.
  destruct (decide (r ∈ members (consistent d))) as [Hin|Hout].
  - rewrite OnInstanceUp_present by done. simpl. split; [tauto|].
    intros [?| ->]; done.
  - rewrite OnInstanceUp_absent by done.
    destruct (updateConsumerSet_frame LocateKey listing
                (set_consistent (Add r (consistent d)) d)) as [-> _].
    simpl. by rewrite elem_of_union, elem_of_singleton.
Qed.

Lemma OnInstanceDown_members listing r d m :
  m ∈ members (consistent (after (OnInstanceDown LocateKey listing r d))) ↔
  m ∈ members (consistent d) ∧ m ≠ r.
Proof.
  destruct (decide (r ∈ members (consistent d))) as [Hin|Hout].
  - rewrite OnInstanceDown_present by done.
    destruct (updateConsumerSet_frame LocateKey listing
                (set_consistent (Remove r (consistent d)) d)) as [-> _].
    simpl. by rewrite elem_of_difference, elem_of_singleton.
  - rewrite OnInstanceDown_absent by done. simpl. split; [|tauto].
    intros Hm. split; [done|]. by intros ->.
Qed.

(** X6.  A membership signal that returns an error has changed the ring
    and nothing else: the error is that of the listing of consumers, the
    instance is on the ring after [OnInstanceUp] and off it after
    [OnInstanceDown], the consumer set is as it was and nothing was added
    to the work queue. *)
Theorem signal_error_keeps_ring_change
    (listing : Result (list Consumer)) (r : string) (d : HashDispatcher) (e : string) :
  (let o := OnInstanceUp LocateKey listing r d in
   returned o = Some e →
   (r ∈ members (consistent (after o))) ∧
   consumerSet (after o) = consumerSet d ∧
   (∀ item, WorkQueue_Add item ∉ calls o) ∧
   ∃ msg, listing = Err msg ∧ e = "unable to list consumers: " +:+ msg) ∧
  (let o := OnInstanceDown LocateKey listing r d in
   returned o = Some e →
   (r ∉ members (consistent (after o))) ∧
   consumerSet (after o) = consumerSet d ∧
   (∀ item, WorkQueue_Add item ∉ calls o) ∧
   ∃ msg, listing = Err msg ∧ e = "unable to list consumers: " +:+ msg).
Proof.
  assert (∀ d', returned (updateConsumerSet LocateKey listing d') = Some e →
            after (updateConsumerSet LocateKey listing d') = d' ∧
            (∀ item, WorkQueue_Add item ∉ calls (updateConsumerSet LocateKey listing d')) ∧
            ∃ msg, listing = Err msg ∧ e = "unable to list consumers: " +:+ msg)
    as Hfailed.
  { intros d'. destruct (decide (GetMembers (consistent d') = [])) as [Hempty|Hring].
    - by rewrite updateConsumerSet_empty_ring.
    - destruct listing as [consumers|msg].
      + by rewrite updateConsumerSet_listed.
      + rewrite updateConsumerSet_list_error by done. cbn [returned after calls].
        intros [= <-]. split; [done|]. split; [|by exists msg].
        intros item Hin. by apply list_elem_of_singleton in Hin. }
  split; cbn zeta.
  - destruct (decide (r ∈ members (consistent d))) as [Hin|Hout].
    + by rewrite OnInstanceUp_present.
    + rewrite OnInstanceUp_absent by done. intros Herr.
      destruct (Hfailed _ Herr) as (-> & Hadd & Hmsg). simpl.
      split; [|done]. apply elem_of_union_r. by apply elem_of_singleton.
  - destruct (decide (r ∈ members (consistent d))) as [Hin|Hout].
    + rewrite OnInstanceDown_present by done. intros Herr.
      destruct (Hfailed _ Herr) as (-> & Hadd & Hmsg). simpl.
      split; [|done]. rewrite elem_of_difference, elem_of_singleton. tauto.
    + by rewrite OnInstanceDown_absent.
Qed.

(** X7.  Signalling down the only member of the ring empties the ring and
    stops there: nil is returned without listing the consumers, and the
    consumer set is left as it was. *)
Theorem OnInstanceDown_last_member
    (listing : Result (list Consumer)) (r : string) (d : HashDispatcher) :
  members (consistent d) = {[r]} →
  OnInstanceDown LocateKey listing r d =
  {| returned := None;
     after := set_consistent {| members := ∅ |} d;
     calls := [] |}.
Proof.
  intros Hsole.
  rewrite OnInstanceDown_present by (rewrite Hsole; by apply elem_of_singleton).
  rewrite updateConsumerSet_empty_ring.
  - unfold Remove. by rewrite Hsole, difference_diag_L.
  - apply GetMembers_nil. simpl. by rewrite Hsole, difference_diag_L.
Qed.

Lemma handle_instanceID e d :
  instanceID (after (handle LocateKey e d)) = instanceID d.
Proof.
  destruct e as [listing r|listing r|instances listing]; unfold handle.
  - run_m. destruct (decide (r ∈ members (consistent d))) as [Hin|Hout].
    + by rewrite OnInstanceUp_present.
    + rewrite OnInstanceUp_absent by done.
      by destruct (updateConsumerSet_frame LocateKey listing
                     (set_consistent (Add r (consistent d)) d)) as [_ ->].
  - run_m. destruct (decide (r ∈ members (consistent d))) as [Hin|Hout].
    + rewrite OnInstanceDown_present by done.
      by destruct (updateConsumerSet_frame LocateKey listing
                     (set_consistent (Remove r (consistent d)) d)) as [_ ->].
    + by rewrite OnInstanceDown_absent.
  - destruct instances as [instances|msg].
    + rewrite check_unfold. cbn zeta. cbn [after].
      destruct (updateConsumerSet_frame LocateKey listing
                  (after (removeInactive (GetMembers (consistent d)) instances d)))
        as [_ ->].
      apply removeInactive_spec.
    + unfold check. by run_m.
Qed.

(** X8.  Nothing the outside world sends changes who the dispatcher is:
    over any run of membership signals and ticks, with any answers from the
    two listings, [instanceID] stays what [NewHashDispatcher] was given. *)
Theorem instanceID_never_changes (events : list Event) (instanceID0 : string) :
  instanceID (after (handleAll LocateKey events (NewHashDispatcher instanceID0))) =
  instanceID0.
Proof.
  change instanceID0 with (instanceID (NewHashDispatcher instanceID0)) at 2.
  generalize (NewHashDispatcher instanceID0).
  induction events as [|e rest IH]; intros d; [done|].
  simpl. run_m. by rewrite IH, handle_instanceID.
Qed.

(** X9.  An instance alone on the ring owns every listed consumer: given
    that the ring places keys on its members, after a reconciliation on the
    ring whose only member is this instance every listed consumer is in the
    consumer set. *)
Theorem sole_member_owns_all_listed
    (consumers : list Consumer) (d : HashDispatcher) (id : string) :
  locatesMembers LocateKey →
  members (consistent d) = {[instanceID d]} →
  id ∈ ID <$> consumers →
  id ∈ consumerSet (after (updateConsumerSet LocateKey (Ok consumers) d)).
Proof.
  intros Hlocates Hsole Hlisted.
  assert (members (consistent d) ≠ ∅) as Hmembers.
  { rewrite Hsole. intros Hempty.
    assert (instanceID d ∈ ({[instanceID d]} : gset string)) as Hin
      by by apply elem_of_singleton.
    rewrite Hempty in Hin. by apply not_elem_of_empty in Hin. }
  apply listed_owned_iff; [by rewrite GetMembers_nil | done |].
  pose proof (Hlocates (consistent d) id Hmembers) as Howner.
  rewrite Hsole in Howner. by apply elem_of_singleton in Howner.
Qed.

(** X10.  An instance that is not on the ring owns no listed consumer:
    given that the ring places keys on its members, after a reconciliation
    on a ring with members that does not hold this instance, no listed
    consumer is in the consumer set. *)
Theorem off_ring_owns_no_listed
    (consumers : list Consumer) (d : HashDispatcher) (id : string) :
  locatesMembers LocateKey →
  GetMembers (consistent d) ≠ [] →
  instanceID d ∉ members (consistent d) →
  id ∈ ID <$> consumers →
  id ∉ consumerSet (after (updateConsumerSet LocateKey (Ok consumers) d)).
Proof.
  intros Hlocates Hring Hoff Hlisted Hin.
  apply listed_owned_iff in Hin; [|done..].
  apply Hoff. rewrite <- Hin. apply Hlocates. by rewrite <- GetMembers_nil.
Qed.

Lemma times_Add_acquired (P : string → Prop) `{∀ x, Decision (P x)}
    (ids : list string) (id : string) :
  P id →
  times (WorkQueue_Add (ItemString id))
    ((λ x, WorkQueue_Add (ItemString x)) <$> filter P ids) =
  length (filter (λ x, x = id) ids).
Proof.
  intros Hid. induction ids as [|x rest IH]; [done|].
  destruct (decide (x = id)) as [->|Hne].
  - rewrite (filter_cons_True P), (filter_cons_True (λ x, x = id)) by done.
    rewrite fmap_cons, times_cons_eq. simpl. by rewrite IH.
  - rewrite (filter_cons_False (λ x, x = id)) by done.
    destruct (decide (P x)) as [Hx|Hx].
    + rewrite (filter_cons_True P), fmap_cons, times_cons_ne by congruence. done.
    + by rewrite (filter_cons_False P).
Qed.

(** X11.  The loop reads the consumer set as it was before the
    reconciliation, so a newly acquired consumer that the listing holds
    several times is added to the work queue once for each time. *)
Theorem enqueued_once_per_occurrence
    (consumers : list Consumer) (d : HashDispatcher) (id : string) :
  GetMembers (consistent d) ≠ [] →
  LocateKey (consistent d) id = instanceID d →
  id ∉ consumerSet d →
  times (WorkQueue_Add (ItemString id))
    (calls (updateConsumerSet LocateKey (Ok consumers) d)) =
  length (filter (λ x, x = id) (ID <$> consumers)).
Proof.
  intros Hring Hmine Hnew. rewrite updateConsumerSet_listed by done.
  cbn [calls]. rewrite times_cons_ne by done.
  by apply (times_Add_acquired (acquired LocateKey d)).
Qed.

(** X12.  Two instances whose rings place a consumer on the same owner
    never both own it: after each has reconciled over a listing that holds
    the consumer, it is in the consumer set of at most one of them. *)
Theorem at_most_one_owner
    (consumersA consumersB : list Consumer) (dA dB : HashDispatcher) (id : string) :
  LocateKey (consistent dA) id = LocateKey (consistent dB) id →
  instanceID dA ≠ instanceID dB →
  GetMembers (consistent dA) ≠ [] →
  GetMembers (consistent dB) ≠ [] →
  id ∈ ID <$> consumersA →
  id ∈ ID <$> consumersB →
  ¬ (id ∈ consumerSet (after (updateConsumerSet LocateKey (Ok consumersA) dA)) ∧
     id ∈ consumerSet (after (updateConsumerSet LocateKey (Ok consumersB) dB))).
Proof.
  intros Hsame Hdiff HringA HringB HlistedA HlistedB [HinA HinB].
  apply listed_owned_iff in HinA; [|done..].
  apply listed_owned_iff in HinB; [|done..].
  congruence.
Qed.

End ReconcilerFacts.

Section RunFacts.

Variable LocateKey : Consistent → string → string.

Lemma updateConsumerSet_grows_by_listed listing d id :
  id ∈ consumerSet (after (updateConsumerSet LocateKey listing d)) →
  id ∈ consumerSet d ∨ ∃ consumers, listing = Ok consumers ∧ id ∈ ID <$> consumers.
Proof.
  destruct (decide (GetMembers (consistent d) = [])) as [Hempty|Hring].
  - rewrite updateConsumerSet_empty_ring by done. by left.
  - destruct listing as [consumers|msg].
    + rewrite updateConsumerSet_elem_of by done.
      intros [[Hold|[_ Hlisted]] _]; [by left|right]. by exists consumers.
    + rewrite updateConsumerSet_list_error by done. by left.
Qed.

Lemma handle_grows_by_listed e d id :
  id ∈ consumerSet (after (handle LocateKey e d)) →
  id ∈ consumerSet d ∨ ∃ consumers, listingOf e = Ok consumers ∧ id ∈ ID <$> consumers.
Proof.
  destruct e as [listing r|listing r|instances listing]; unfold handle;
    cbn [listingOf].
  - run_m. destruct (decide (r ∈ members (consistent d))) as [Hin|Hout].
    + rewrite OnInstanceUp_present by done. by left.
    + rewrite OnInstanceUp_absent by done.
      intros Hid. by apply updateConsumerSet_grows_by_listed in Hid.
  - run_m. destruct (decide (r ∈ members (consistent d))) as [Hin|Hout].
    + rewrite OnInstanceDown_present by done.
      intros Hid. by apply updateConsumerSet_grows_by_listed in Hid.
    + rewrite OnInstanceDown_absent by done. by left.
  - destruct instances as [instances|msg].
    + rewrite check_unfold. cbn zeta. cbn [after]. intros Hid.
      apply updateConsumerSet_grows_by_listed in Hid as [Hid|Hid]; [left|by right].
      by destruct (removeInactive_spec (GetMembers (consistent d)) instances d)
        as (_ & <- & _).
    + unfold check. run_m. by left.
Qed.

Lemma handle_members e d m :
  m ∈ members (consistent (after (handle LocateKey e d))) →
  m ∈ members (consistent d) ∨ ∃ listing, e = InstanceUp listing m.
Proof.
  destruct e as [listing r|listing r|instances listing]; unfold handle.
  - run_m. rewrite OnInstanceUp_members. intros [?| ->]; [by left|right]. by eexists.
  - run_m. rewrite OnInstanceDown_members. intros [? _]. by left.
  - destruct instances as [instances|msg].
    + rewrite check_unfold. cbn zeta. cbn [after].
      destruct (updateConsumerSet_frame LocateKey listing
                  (after (removeInactive (GetMembers (consistent d)) instances d)))
        as [-> _].
      rewrite removeInactive_members. intros [? _]. by left.
    + unfold check. run_m. by left.
Qed.

(** X18.  A tick whose listing of instances comes back empty stops short
    of the consumers: they are not listed, the consumer set is left as it
    was and nothing is added to the work queue. *)
Theorem check_no_instances_keeps_consumerSet
    (listing : Result (list Consumer)) (d : HashDispatcher) :
  let o := check LocateKey (Ok []) listing d in
  consumerSet (after o) = consumerSet d ∧
  (ConsumerDao_All ∉ calls o) ∧
  ∀ item, WorkQueue_Add item ∉ calls o.
Proof.
  cbn zeta. rewrite check_unfold. cbn zeta. cbn [after calls].
  set (d1 := after (removeInactive (GetMembers (consistent d)) [] d)).
  assert (members (consistent d1) = ∅) as Hempty.
  { apply set_eq. intros m. subst d1. rewrite removeInactive_members.
    unfold GetMembers. rewrite elem_of_elements. simpl.
    split; [intros [Hm Hkeep]; exfalso; by apply Hkeep | by intros ?%not_elem_of_empty]. }
  destruct (removeInactive_spec (GetMembers (consistent d)) [] d) as (Hcalls & Hset & _).
  fold d1 in Hcalls, Hset.
  rewrite updateConsumerSet_empty_ring by by apply GetMembers_nil.
  cbn [after calls]. rewrite Hcalls. split; [done|].
  split; [|intros item]; intros Hin;
    (apply elem_of_cons in Hin as [?|Hin]; [done|]); by apply elem_of_nil in Hin.
Qed.

(** X19.  The consumer set never holds an ID out of nowhere: over any run
    of signals and ticks from a new dispatcher, every consumer for which
    [Dispatch] answers true was shown by a successful listing of that run. *)
Theorem dispatched_consumers_were_listed
    (events : list Event) (instanceID0 : string) (consumerID : string) :
  Dispatch consumerID
    (after (handleAll LocateKey events (NewHashDispatcher instanceID0))) = true →
  shown events consumerID.
Proof.
  unfold Dispatch. rewrite Contains_true.
  assert (∀ d, consumerID ∈ consumerSet (after (handleAll LocateKey events d)) →
               consumerID ∈ consumerSet d ∨ shown events consumerID) as Hrun.
  { induction events as [|e rest IH]; intros d Hin; [by left|].
    simpl in Hin. revert Hin. run_m. intros Hin.
    apply IH in Hin as [Hin|(e' & consumers & He' & Hl & Hid)].
    - apply handle_grows_by_listed in Hin as [Hin|(consumers & Hl & Hid)]; [by left|].
      right. exists e, consumers. split; [by left|done].
    - right. exists e', consumers. split; [by right|done]. }
  intros Hin. apply Hrun in Hin as [Hin|Hin]; [|done].
  simpl in Hin. by apply not_elem_of_empty in Hin.
Qed.

(** X20.  The ring never holds a name out of nowhere: over any run of
    signals and ticks from a new dispatcher, every member of the ring was
    signalled up in that run. *)
Theorem ring_members_were_signalled_up
    (events : list Event) (instanceID0 : string) (m : string) :
  m ∈ GetMembers
        (consistent (after (handleAll LocateKey events (NewHashDispatcher instanceID0)))) →
  ∃ listing, InstanceUp listing m ∈ events.
Proof.
  unfold GetMembers. rewrite elem_of_elements.
  assert (∀ d, m ∈ members (consistent (after (handleAll LocateKey events d))) →
               m ∈ members (consistent d) ∨ ∃ listing, InstanceUp listing m ∈ events)
    as Hrun.
  { induction events as [|e rest IH]; intros d Hin; [by left|].
    simpl in Hin. revert Hin. run_m. intros Hin.
    apply IH in Hin as [Hin|[listing Hup]].
    - apply handle_members in Hin as [Hin|[listing ->]]; [by left|].
      right. exists listing. by left.
    - right. exists listing. by right. }
  intros Hin. apply Hrun in Hin as [Hin|Hin]; [|done].
  simpl in Hin. by apply not_elem_of_empty in Hin.
Qed.

End RunFacts.

(** ** Further properties of the resync workers *)

Lemma processNextResync_retrieved item resync d :
  returned (processNextResync (item, false) resync d) = true ∧
  after (processNextResync (item, false) resync d) = d.
Proof. by destruct item, resync. Qed.

Lemma resyncWorker_shutdown item resync rest d :
  resyncWorker ((item, true, resync) :: rest) d =
  {| returned := true; after := d; calls := [WorkQueue_Get] |}.
Proof. done. Qed.

Lemma resyncWorker_retrieved item resync rest d :
  resyncWorker ((item, false, resync) :: rest) d =
  {| returned := returned (resyncWorker rest d);
     after := after (resyncWorker rest d);
     calls := calls (processNextResync (item, false) resync d) ++
              calls (resyncWorker rest d) |}.
Proof. apply resyncWorker_continue; apply processNextResync_retrieved. Qed.

(** Every call of a worker is a call of one of its turns. *)
Lemma resyncWorker_calls answers : ∀ d c,
  c ∈ calls (resyncWorker answers d) →
  ∃ got resync, (got, resync) ∈ answers ∧ c ∈ calls (processNextResync got resync d).
Proof.
  induction answers as [|[[item shutdown] resync] rest IH]; intros d c Hin.
  - by apply elem_of_nil in Hin.
  - destruct shutdown.
    + rewrite resyncWorker_shutdown in Hin. cbn [calls] in Hin.
      exists (item, true), resync. split; [by left|].
      by rewrite processNextResync_shutdown.
    + rewrite resyncWorker_retrieved in Hin. cbn [calls] in Hin.
      apply elem_of_app in Hin as [Hin|Hin].
      * exists (item, false), resync. split; [by left|done].
      * destruct (IH d c Hin) as (got & resync' & Hturn & Hc).
        exists got, resync'. split; [by right|done].
Qed.

(** X13.  A worker leaves its loop at the first [Get] that reports
    shutdown: after turns that each retrieved an item, the shutdown turn
    makes one call, that [Get], the loop is left, and whatever the queue or
    the source client would have answered next plays no part. *)
Theorem worker_leaves_at_shutdown
    (before later : list (Item * bool * error)) (item : Item) (resync : error)
    (d : HashDispatcher) :
  Forall retrieves before →
  let o := resyncWorker (before ++ (item, true, resync) :: later) d in
  returned o = true ∧ after o = d ∧
  calls o = calls (resyncWorker before d) ++ [WorkQueue_Get].
Proof.
  intros Hbefore. cbn zeta.
  induction Hbefore as [|[[item' shutdown] resync'] rest Hturn _ IH].
  - by rewrite app_nil_l, resyncWorker_shutdown.
  - unfold retrieves in Hturn. simpl in Hturn. subst shutdown.
    rewrite <- app_comm_cons, !resyncWorker_retrieved. cbn [returned after calls].
    destruct IH as (-> & -> & ->). by rewrite app_assoc.
Qed.

(** X14.  Between turns a worker holds no item: over any answers, the
    dispatcher is left as it was, and the worker has called [Done] as many
    times as [Get], but for the one [Get] that reported shutdown if the
    loop was left. *)
Theorem worker_balances_Get_and_Done
    (answers : list (Item * bool * error)) (d : HashDispatcher) :
  let o := resyncWorker answers d in
  after o = d ∧
  length (List.filter isGet (calls o)) =
  length (List.filter isDone (calls o)) + (if returned o then 1 else 0).
Proof.
  cbn zeta. induction answers as [|[[item shutdown] resync] rest [IHd IHn]]; [done|].
  destruct shutdown.
  - by rewrite resyncWorker_shutdown.
  - rewrite resyncWorker_retrieved. cbn [returned after calls].
    split; [done|]. rewrite !List.filter_app, !length_app, IHn.
    destruct item as [id|tag]; [destruct resync as [msg|]|]; simpl; lia.
Qed.

(** X15.  What a worker never does: it calls [Forget] only on an item that
    is not a string, [AddRateLimited] only on a string item whose resync
    failed in one of its turns, and [Resync] only with the single ID of a
    string item it retrieved; it never calls [Add]. *)
Theorem worker_call_discipline
    (answers : list (Item * bool * error)) (d : HashDispatcher) (item : Item)
    (ids : list string) :
  let o := resyncWorker answers d in
  (WorkQueue_Forget item ∈ calls o → ∃ tag, item = ItemOther tag) ∧
  (WorkQueue_AddRateLimited item ∈ calls o →
   ∃ id msg, item = ItemString id ∧ (ItemString id, false, Some msg) ∈ answers) ∧
  (SourceClient_Resync ids ∈ calls o →
   ∃ id resync, ids = [id] ∧ (ItemString id, false, resync) ∈ answers) ∧
  (WorkQueue_Add item ∉ calls o).
Proof.
  cbn zeta. repeat split.
  - intros Hin. apply resyncWorker_calls in Hin
      as ([[id|tag] [|]] & [msg|] & Hturn & Hin); cbn in Hin;
      repeat (apply elem_of_cons in Hin as [Heq|Hin]; [try done|]);
      try (by apply elem_of_nil in Hin).
    all: inversion Heq; subst; by eexists.
  - intros Hin. apply resyncWorker_calls in Hin
      as ([[id|tag] [|]] & [msg|] & Hturn & Hin); cbn in Hin;
      repeat (apply elem_of_cons in Hin as [Heq|Hin]; [try done|]);
      try (by apply elem_of_nil in Hin).
    inversion Heq; subst. by exists id, msg.
  - intros Hin. apply resyncWorker_calls in Hin
      as ([[id|tag] [|]] & resync & Hturn & Hin); destruct resync as [msg|];
      cbn in Hin;
      repeat (apply elem_of_cons in Hin as [Heq|Hin]; [try done|]);
      try (by apply elem_of_nil in Hin).
    all: inversion Heq; subst; by eexists _, _.
  - intros Hin. apply resyncWorker_calls in Hin
      as ([[id|tag] [|]] & [msg|] & Hturn & Hin); cbn in Hin;
      repeat (apply elem_of_cons in Hin as [Heq|Hin]; [try done|]);
      by apply elem_of_nil in Hin.
Qed.

(** ** Further properties of [Start] and its goroutines *)

Lemma initial_noExit : noExitInv initial.
Proof. intros _. constructor. Qed.

Lemma step_noExit t s s' :
  step t s = Some s' → noExitInv s → noExitInv s'.
Proof.
  unfold noExitInv. destruct s as [cd sd q spc wpc n ws].
  destruct t as [|item| | |i]; simpl.
  - by intros [= <-].
  - by intros [= <-].
  - unfold Start_step. simpl.
    destruct spc; [| |destruct cd; [|done]| |done]; intros [= <-]; simpl; done.
  - unfold startStatusResyncWorkers_step. simpl.
    destruct wpc as [| |i| |]; try case_bool_decide; try done;
      intros [= <-]; simpl; try done.
    intros Hinv Hsd. apply Forall_app. split; [by apply Hinv|].
    by repeat constructor.
  - unfold worker_step. simpl.
    destruct (ws !! i) as [[|item|]|]; [| |done|done].
    + destruct q as [|item rest].
      * destruct sd; [|done]. intros [= <-]. simpl. done.
      * intros [= <-]. simpl. intros Hinv Hsd. apply Forall_insert; [by apply Hinv|done].
    + intros [= <-]. simpl. intros Hinv Hsd. apply Forall_insert; [by apply Hinv|done].
Qed.

Lemma run_noExit schedule : ∀ s s',
  run schedule s = Some s' → noExitInv s → noExitInv s'.
Proof.
  induction schedule as [|t rest IH]; intros s s' Hrun Hinv; simpl in Hrun.
  - by simplify_eq.
  - destruct (step t s) as [s1|] eqn:Hstep; [|done].
    eapply IH; [done|]. by eapply step_noExit.
Qed.

(** X16.  Until ctx is cancelled everything keeps running: in every state
    the system reaches with ctx not cancelled, the queue is not shut down,
    no worker has left its loop, and [startStatusResyncWorkers] has not
    returned. *)
Theorem nothing_stops_before_cancel (schedule : list Thread) (s : System) :
  run schedule initial = Some s →
  ctxDone s = false →
  shuttingDown s = false ∧
  Forall (λ pc, pc ≠ Exited) (workers s) ∧
  workersPC s ≠ WorkersReturned.
Proof.
  intros Hrun Hctx.
  destruct (run_inv schedule initial s Hrun initial_inv)
    as [(_ & _ & Hret & [Hq1 Hq2]) Hw].
  pose proof (run_noExit schedule initial s Hrun initial_noExit) as Hlive.
  assert (shuttingDown s = false) as Hsd.
  { destruct (shuttingDown s) eqn:Hsd; [|done].
    rewrite Hret in Hctx by by apply Hq1. done. }
  split; [done|]. split; [by apply Hlive|].
  intros Hdone. unfold workersInv in Hw. rewrite Hdone in Hw.
  destruct Hw as (Hlen & Hwg & Hzero).
  assert (Forall (λ pc, pc = Exited) (workers s)) as Hexited
    by (apply live_0_all_exited; congruence).
  specialize (Hlive Hsd).
  destruct (workers s) as [|pc ws]; [done|].
  inversion Hexited; subst. inversion Hlive; subst. done.
Qed.

(** X17.  The pool is bounded: in every state the system reaches there are
    at most [maxConcurrentResyncHandlers] workers, and once
    [startStatusResyncWorkers] is in [wg.Wait] there are exactly that many
    and the counter of the wait group is the number of workers still in
    their loop. *)
Theorem worker_pool_is_bounded (schedule : list Thread) (s : System) :
  run schedule initial = Some s →
  length (workers s) ≤ maxConcurrentResyncHandlers ∧
  (workersPC s = AtWgWait →
   length (workers s) = maxConcurrentResyncHandlers ∧ wg s = live (workers s)).
Proof.
  intros Hrun.
  destruct (run_inv schedule initial s Hrun initial_inv) as [_ Hw].
  unfold workersInv in Hw. unfold maxConcurrentResyncHandlers in *.
  destruct (workersPC s) as [| |i| |].
  - destruct Hw as [-> _]. split; [simpl; lia|done].
  - destruct Hw as [-> _]. split; [simpl; lia|done].
  - split; [lia|done].
  - split; [lia|done].
  - split; [lia|done].
Qed.

(** ** Further worked examples *)

(** [byLength] keeps the promise of the ring library. *)
Lemma byLength_locates : locatesMembers byLength.
Proof.
  intros c key Hmembers. unfold byLength, GetMembers.
  assert (elements (members c) ≠ []) as Hne.
  { intros Hnil. by apply Hmembers, leibniz_equiv, elements_empty_inv. }
  assert (String.length key `mod` length (elements (members c)) <
          length (elements (members c))) as Hlt.
  { apply Nat.mod_upper_bound. by destruct (elements (members c)). }
  destruct (lookup_lt_is_Some_2 _ _ Hlt) as [owner Howner].
  rewrite Howner. simpl. apply elem_of_elements.
  by eapply list_elem_of_lookup_2.
Qed.

Lemma check_reconciles_staleA :
  let d' := after (check byLength (Ok [{| InstanceID := "A" |}; {| InstanceID := "B" |}])
                     (Ok [c1; c22; c333]) staleA) in
  "c22" ∈ consumerSet d' ↔ byLength (consistent d') "c22" = instanceID d'.
Proof.
  apply (check_reconciles_on_pruned_ring byLength
           [{| InstanceID := "A" |}; {| InstanceID := "B" |}] [c1; c22; c333]
           staleA "c22"); by_compute.
Defined.

Lemma updateConsumerSet_twice_staleA :
  let d1 := after (updateConsumerSet byLength (Ok [c1; c22; c333]) staleA) in
  updateConsumerSet byLength (Ok [c1; c22; c333]) d1 =
  {| returned := None; after := d1; calls := [ConsumerDao_All] |}.
Proof.
  apply (updateConsumerSet_twice byLength [c1; c22; c333] staleA). by_compute.
Defined.


Lemma OnInstanceUp_B_list_failure :
  "B" ∈ members (consistent (after (OnInstanceUp byLength (Err "timeout") "B" aloneA))).
Proof.
  destruct (signal_error_keeps_ring_change byLength (Err "timeout") "B" aloneA
              "unable to list consumers: timeout") as [Hup _].
  apply Hup. vm_compute. reflexivity.
Defined.

Lemma OnInstanceDown_A_alone :
  OnInstanceDown byLength (Err "timeout") "A" aloneA =
  {| returned := None;
     after := set_consistent {| members := ∅ |} aloneA;
     calls := [] |}.
Proof.
  apply (OnInstanceDown_last_member byLength (Err "timeout") "A" aloneA).
  vm_compute. reflexivity.
Defined.

Lemma aloneA_owns_c333 :
  "c333" ∈ consumerSet (after (updateConsumerSet byLength (Ok [c1; c22; c333]) aloneA)).
Proof.
  apply (sole_member_owns_all_listed byLength [c1; c22; c333] aloneA "c333").
  - apply byLength_locates.
  - vm_compute. reflexivity.
  - by_compute.
Defined.

Lemma watcherC_owns_nothing :
  "c1" ∉ consumerSet (after (updateConsumerSet byLength (Ok [c1; c22; c333]) watcherC)).
Proof.
  apply (off_ring_owns_no_listed byLength [c1; c22; c333] watcherC "c1").
  - apply byLength_locates.
  - by_compute.
  - by_compute.
  - by_compute.
Defined.

Lemma c333_listed_twice_enqueued_twice :
  times (WorkQueue_Add (ItemString "c333"))
    (calls (updateConsumerSet byLength (Ok [c333; c1; c333]) staleA)) = 2.
Proof.
  apply (enqueued_once_per_occurrence byLength [c333; c1; c333] staleA "c333");
    by_compute.
Defined.

Lemma c22_not_owned_by_both :
  ¬ ("c22" ∈ consumerSet (after (updateConsumerSet byLength (Ok [c1; c22]) staleA)) ∧
     "c22" ∈ consumerSet (after (updateConsumerSet byLength (Ok [c22; c333]) joinedB))).
Proof.
  apply (at_most_one_owner byLength [c1; c22] [c22; c333] staleA joinedB "c22").
  - vm_compute. reflexivity.
  - by_compute.
  - by_compute.
  - by_compute.
  - by_compute.
  - by_compute.
Defined.

Lemma worker_leaves_after_one_resync :
  calls (resyncWorker
           ([(ItemString "c1", false, None)] ++
            (ItemOther 0, true, None) :: [(ItemString "c22", false, None)])
           aloneA) =
  calls (resyncWorker [(ItemString "c1", false, None)] aloneA) ++ [WorkQueue_Get].
Proof.
  apply (worker_leaves_at_shutdown [(ItemString "c1", false, None)]
           [(ItemString "c22", false, None)] (ItemOther 0) None aloneA).
  repeat constructor.
Defined.

Lemma allLaunched_all_running :
  shuttingDown allLaunched = false ∧
  Forall (λ pc, pc ≠ Exited) (workers allLaunched) ∧
  workersPC allLaunched ≠ WorkersReturned.
Proof.
  assert (run launchAll initial = Some allLaunched) as Hrun by (vm_compute; reflexivity).
  apply (nothing_stops_before_cancel launchAll allLaunched Hrun). reflexivity.
Defined.

Lemma allLaunched_has_ten_workers :
  length (workers allLaunched) ≤ maxConcurrentResyncHandlers.
Proof.
  assert (run launchAll initial = Some allLaunched) as Hrun by (vm_compute; reflexivity).
  apply (worker_pool_is_bounded launchAll allLaunched Hrun).
Defined.

Lemma c1_dispatched_was_listed :
  shown [InstanceUp (Ok [c1; c22]) "A"] "c1".
Proof.
  apply (dispatched_consumers_were_listed byLength
           [InstanceUp (Ok [c1; c22]) "A"] "A" "c1").
  vm_compute. reflexivity.
Defined.

Lemma member_A_was_signalled_up :
  ∃ listing, InstanceUp listing "A" ∈
    [Tick (Ok []) (Ok [c1]); InstanceUp (Ok [c1; c22]) "A"; InstanceDown (Ok []) "B"].
Proof.
  apply (ring_members_were_signalled_up byLength
           [Tick (Ok []) (Ok [c1]); InstanceUp (Ok [c1; c22]) "A"; InstanceDown (Ok []) "B"]
           "A" "A").
  by_compute.
Defined.
